(** * checkly-operator: the process entry point and the reconciliation core

    Part I ([Module Cmd]) is a shallow embedding of [cmd/main.go]: the
    start-up wiring of the operator, written in a small trace-and-exit
    monad so that every call [main] makes to the outside (flags, logger,
    manager, environment, checkly SDK) is an observable event.

    Part II ([Module Core]) models the reconcile loop, the finalizer
    handling and the ingress-derived synchronizer.  Their Go sources
    ([internal/controller/...]) are not among the sources at hand, so
    these definitions follow the design document.

    Parts III to V state and prove the properties of each part; Part VI
    holds those that speak of the wiring and the core together. *)

From stdpp Require Import gmap strings list fin_maps pretty.
From Stdlib Require Import ZArith.

Local Open Scope string_scope.
Local Open Scope list_scope.

(* ===================================================================== *)
(** * Part I: cmd/main.go                                                *)
(* ===================================================================== *)

Module Cmd.

(** The four controllers [main] registers. *)
Inductive Kind := Ingress | ApiCheck | Group | AlertChannel.

#[global] Instance Kind_eq_dec : EqDecision Kind.
Proof. solve_decision. Defined.

(** The cluster client of the manager and the package-level scheme
    ([var scheme = runtime.NewScheme()], filled in by [init]). *)
Inductive K8sClient := ManagerClient.
Inductive SchemeRef := PackageScheme.

Definition scheme : SchemeRef := PackageScheme.

(** [mgr.GetClient()] and [mgr.GetScheme()]: the manager hands out its
    client and the scheme it was constructed with. *)
Definition mgr_GetClient : K8sClient := ManagerClient.
Definition mgr_GetScheme : SchemeRef := scheme.

(** [checkly.NewClient] returns a reference to a client object that
    [SetAccountId] later mutates; the reconcilers keep the reference.  The
    client objects live in a heap indexed by [ClientRef]. *)
Definition ClientRef := nat.

Record ChecklyClient := {
  cl_baseUrl    : string;
  cl_apiKey     : string;
  cl_httpClient : option nat;   (* nil: the SDK falls back to http.DefaultClient *)
  cl_debug      : option nat;   (* nil: no debug writer *)
  cl_accountId  : string
}.

(** A reconciler as main hands it to the manager.  The four struct types
    are declared in [internal/controller], not at hand; a struct literal
    leaves every field it does not name at its zero value, so a reconciler
    is given by its type ([kindOf]) and the fields main can set: [Client]
    ([clientOf]), [Scheme] ([schemeOf]), [ApiClient] ([apiClientOf],
    [None] for nil) and [ControllerDomain] ([domainOf]). *)
Record Reconciler := {
  kindOf      : Kind;
  clientOf    : K8sClient;
  schemeOf    : SchemeRef;
  apiClientOf : option ClientRef;
  domainOf    : string
}.

(** The struct literals of lines 114-148, with exactly the fields main
    sets. *)
Definition IngressReconciler (Client : K8sClient) (Scheme : SchemeRef)
    (ControllerDomain : string) : Reconciler :=
  {| kindOf := Ingress; clientOf := Client; schemeOf := Scheme;
     apiClientOf := None; domainOf := ControllerDomain |}.

Definition ApiCheckReconciler (Client : K8sClient) (Scheme : SchemeRef)
    (ApiClient : ClientRef) (ControllerDomain : string) : Reconciler :=
  {| kindOf := ApiCheck; clientOf := Client; schemeOf := Scheme;
     apiClientOf := Some ApiClient; domainOf := ControllerDomain |}.

Definition GroupReconciler (Client : K8sClient) (Scheme : SchemeRef)
    (ApiClient : ClientRef) (ControllerDomain : string) : Reconciler :=
  {| kindOf := Group; clientOf := Client; schemeOf := Scheme;
     apiClientOf := Some ApiClient; domainOf := ControllerDomain |}.

Definition AlertChannelReconciler (Client : K8sClient) (Scheme : SchemeRef)
    (ApiClient : ClientRef) (ControllerDomain : string) : Reconciler :=
  {| kindOf := AlertChannel; clientOf := Client; schemeOf := Scheme;
     apiClientOf := Some ApiClient; domainOf := ControllerDomain |}.

(** [ctrl.Options] as filled in at lines 78-86. *)
Record ManagerOptions := {
  Scheme                 : SchemeRef;
  MetricsBindAddress     : string;
  HealthProbeBindAddress : string;
  LeaderElection         : bool;
  LeaderElectionID       : string
}.

(** What a reconcile invocation dispatched by the running manager came
    back with: the design document's error taxonomy. *)
Inductive ErrorKind :=
  ValidationError | ConflictError | TransientError | NotFoundOnDelete.

(** Everything main does that is visible from outside, in program order. *)
Inductive Event :=
| EvLogInfo (verbosity : nat) (msg : string) (kvs : list (string * string))
| EvLogError (err : string) (msg : string) (kvs : list (string * string))
| EvGetConfig
| EvNewManager (opts : ManagerOptions)
| EvGetenv (name : string)
| EvNewClient (baseUrl apiKey : string) (http debug : option nat)
    (ref : ClientRef)
| EvSetAccountId (ref : ClientRef) (accountId : string)
| EvSetupWithManager (r : Reconciler)
| EvAddHealthzCheck (name : string)
| EvAddReadyzCheck (name : string)
| EvStart
| EvReconcile (k : Kind) (res : option ErrorKind)
| EvExit (code : Z).

(** The values given on the command line, per flag ([None]: flag absent).
    A command line that does not parse makes [flag.Parse] end the process
    by itself at line 72 and is not an [Env]. *)
Record CommandLine := {
  arg_metrics_bind_address      : option string;
  arg_health_probe_bind_address : option string;
  arg_leader_elect              : option bool;
  arg_controller_domain         : option string
}.

(** The surroundings of one run of the process: the command line, the
    environment variables, and the answers of the calls main makes. *)
Record Env := {
  cmdline              : CommandLine;
  getConfig_ok         : bool;                 (* ctrl.GetConfigOrDie *)
  newManager_err       : option string;        (* ctrl.NewManager *)
  environ              : gmap string string;   (* os.Getenv *)
  setupWithManager_err : Kind -> option string;
  addHealthzCheck_err  : option string;
  addReadyzCheck_err   : option string;
  (* mgr.Start blocks while the manager dispatches reconciles, whose
     errors it handles itself by requeueing, and finally returns *)
  start_reconciles     : list (Kind * option ErrorKind);
  start_err            : option string
}.

(** ** The monad: a trace, a heap of client objects, early exit *)

Record State := { trace : list Event; heap : list ChecklyClient }.

Inductive Result (A : Type) :=
| Ret (a : A)
| Exited (code : Z).
Arguments Ret {A} a.
Arguments Exited {A} code.

Definition M (A : Type) : Type := State -> State * Result A.

Definition ret {A} (a : A) : M A := fun s => (s, Ret a).

Definition bind {A B} (m : M A) (k : A -> M B) : M B :=
  fun s =>
    match m s with
    | (s', Ret a) => k a s'
    | (s', Exited c) => (s', Exited c)
    end.

#[global] Instance M_ret : MRet M := @ret.
#[global] Instance M_bind : MBind M := fun A B k m => bind m k.

Definition emit (ev : Event) : M unit :=
  fun s => ({| trace := trace s ++ [ev]; heap := heap s |}, Ret tt).

Fixpoint emit_all (evs : list Event) : M unit :=
  match evs with
  | [] => ret tt
  | ev :: evs' => emit ev ;; emit_all evs'
  end.

(** [os.Exit(code)] *)
Definition os_Exit {A} (code : Z) : M A :=
  fun s => ({| trace := trace s ++ [EvExit code]; heap := heap s |},
            Exited code).

(** [flag.StringVar] / [flag.BoolVar] followed by [flag.Parse]: the value
    from the command line, else the default. *)
Definition flag_Var {A} (given : option A) (dflt : A) : A :=
  match given with Some v => v | None => dflt end.

Definition setupLog_Info (v : nat) (msg : string)
    (kvs : list (string * string)) : M unit :=
  emit (EvLogInfo v msg kvs).

Definition setupLog_Error (err msg : string)
    (kvs : list (string * string)) : M unit :=
  emit (EvLogError err msg kvs).

(** [ctrl.GetConfigOrDie()]: on failure the library logs and exits 1. *)
Definition ctrl_GetConfigOrDie (e : Env) : M unit :=
  emit EvGetConfig ;;
  if getConfig_ok e then ret tt else os_Exit 1.

Definition ctrl_NewManager (e : Env) (opts : ManagerOptions)
    : M (option string) :=
  emit (EvNewManager opts) ;; ret (newManager_err e).

(** [os.Getenv]: the empty string for an unset variable. *)
Definition os_Getenv (e : Env) (name : string) : M string :=
  emit (EvGetenv name) ;; ret (default "" (environ e !! name)).

Definition checkly_NewClient (baseUrl apiKey : string)
    (http debug : option nat) : M ClientRef :=
  fun s =>
    let ref := length (heap s) in
    ({| trace := trace s ++ [EvNewClient baseUrl apiKey http debug ref];
        heap := heap s ++ [{| cl_baseUrl := baseUrl; cl_apiKey := apiKey;
                              cl_httpClient := http; cl_debug := debug;
                              cl_accountId := "" |}] |},
     Ret ref).

Definition set_account (a : string) (c : ChecklyClient) : ChecklyClient :=
  {| cl_baseUrl := cl_baseUrl c; cl_apiKey := cl_apiKey c;
     cl_httpClient := cl_httpClient c; cl_debug := cl_debug c;
     cl_accountId := a |}.

Definition client_SetAccountId (ref : ClientRef) (a : string) : M unit :=
  fun s =>
    ({| trace := trace s ++ [EvSetAccountId ref a];
        heap := alter (set_account a) ref (heap s) |}, Ret tt).

Definition SetupWithManager (e : Env) (r : Reconciler) : M (option string) :=
  emit (EvSetupWithManager r) ;; ret (setupWithManager_err e (kindOf r)).

Definition mgr_AddHealthzCheck (e : Env) (name : string) : M (option string) :=
  emit (EvAddHealthzCheck name) ;; ret (addHealthzCheck_err e).

Definition mgr_AddReadyzCheck (e : Env) (name : string) : M (option string) :=
  emit (EvAddReadyzCheck name) ;; ret (addReadyzCheck_err e).

Definition mgr_Start (e : Env) : M (option string) :=
  emit EvStart ;;
  emit_all (map (fun kr => EvReconcile kr.1 kr.2) (start_reconciles e)) ;;
  ret (start_err e).

(** [if err != nil { setupLog.Error(err, msg, kvs...); os.Exit(1) }] *)
Definition exit_on_error (err : option string) (msg : string)
    (kvs : list (string * string)) : M unit :=
  match err with
  | Some x => setupLog_Error x msg kvs ;; os_Exit 1
  | None => ret tt
  end.

(** ** [func main()]

    Lines 68-74 (zap options, [flag.Parse], [ctrl.SetLogger]) set up the
    logger and leave the flag values in the variables; they decide nothing
    of what follows and are not events. *)

Definition main (e : Env) : M unit :=
  let metricsAddr :=
    flag_Var (arg_metrics_bind_address (cmdline e)) ":8080" in
  let probeAddr :=
    flag_Var (arg_health_probe_bind_address (cmdline e)) ":8081" in
  let enableLeaderElection :=
    flag_Var (arg_leader_elect (cmdline e)) false in
  let controllerDomain :=
    flag_Var (arg_controller_domain (cmdline e)) "k8s.checklyhq.com" in
  setupLog_Info 0 "Controller domain setup" [("value", controllerDomain)] ;;
  ctrl_GetConfigOrDie e ;;
  err ← ctrl_NewManager e
           {| Scheme := scheme;
              MetricsBindAddress := metricsAddr;
              HealthProbeBindAddress := probeAddr;
              LeaderElection := enableLeaderElection;
              LeaderElectionID := "4e7eab13.checklyhq.com" |};
  exit_on_error err "unable to start manager" [] ;;
  let baseUrl := "https://api.checklyhq.com" in
  apiKey ← os_Getenv e "CHECKLY_API_KEY";
  (if decide (apiKey = "") then
     setupLog_Error "checklyhq.com API key environment variable is undefined"
       "checklyhq.com credentials missing" [] ;;
     os_Exit 1
   else ret tt) ;;
  accountId ← os_Getenv e "CHECKLY_ACCOUNT_ID";
  (if decide (accountId = "") then
     setupLog_Error
       "checklyhq.com Account ID environment variable is undefined"
       "checklyhq.com credentials missing" [] ;;
     os_Exit 1
   else ret tt) ;;
  client ← checkly_NewClient baseUrl apiKey None None;
  client_SetAccountId client accountId ;;
  err ← SetupWithManager e
           (IngressReconciler mgr_GetClient mgr_GetScheme controllerDomain);
  exit_on_error err "unable to create controller"
    [("controller", "Ingress")] ;;
  err ← SetupWithManager e
           (ApiCheckReconciler mgr_GetClient mgr_GetScheme client
              controllerDomain);
  exit_on_error err "unable to create controller"
    [("controller", "ApiCheck")] ;;
  err ← SetupWithManager e
           (GroupReconciler mgr_GetClient mgr_GetScheme client
              controllerDomain);
  exit_on_error err "unable to create controller"
    [("controller", "Group")] ;;
  err ← SetupWithManager e
           (AlertChannelReconciler mgr_GetClient mgr_GetScheme client
              controllerDomain);
  exit_on_error err "unable to create controller"
    [("controller", "AlertChannel")] ;;
  setupLog_Info 1 "starting health endpoint" [] ;;
  err ← mgr_AddHealthzCheck e "healthz";
  exit_on_error err "unable to set up health check" [] ;;
  setupLog_Info 1 "starting ready endpoint" [] ;;
  err ← mgr_AddReadyzCheck e "readyz";
  exit_on_error err "unable to set up ready check" [] ;;
  setupLog_Info 1 "starting manager" [] ;;
  err ← mgr_Start e;
  exit_on_error err "problem running manager" [].

(** One run of the process from an empty trace and heap. *)
Definition run (e : Env) : State * Result unit :=
  main e {| trace := []; heap := [] |}.

Definition run_trace (e : Env) : list Event := trace (run e).1.
Definition run_heap (e : Env) : list ChecklyClient := heap (run e).1.
Definition run_result (e : Env) : Result unit := (run e).2.

(** ** Observations on a trace *)

Definition registered (t : list Event) : list Reconciler :=
  omap (fun ev => match ev with EvSetupWithManager r => Some r | _ => None end) t.

Definition clients_created (t : list Event) : list ClientRef :=
  omap (fun ev => match ev with
                  | EvNewClient _ _ _ _ ref => Some ref
                  | _ => None end) t.

Definition is_start (ev : Event) : bool :=
  match ev with EvStart => true | _ => false end.

Definition is_reconcile (ev : Event) : bool :=
  match ev with EvReconcile _ _ => true | _ => false end.

Definition is_credentials_missing (ev : Event) : bool :=
  match ev with
  | EvLogError _ msg _ => bool_decide (msg = "checklyhq.com credentials missing")
  | _ => false
  end.

(** The manager was started in this run: [mgr.Start] was called. *)
Definition manager_started (e : Env) : bool := existsb is_start (run_trace e).

(** The part of a trace before [mgr.Start] is called. *)
Fixpoint before_start (t : list Event) : list Event :=
  match t with
  | [] => []
  | ev :: t' => if is_start ev then [] else ev :: before_start t'
  end.

(** The run ended by logging "credentials missing" and exiting 1. *)
Definition ends_with_credentials_exit (t : list Event) : bool :=
  match reverse t with
  | EvExit c :: ev :: _ => bool_decide (c = 1%Z) && is_credentials_missing ev
  | _ => false
  end.

Definition getenv (e : Env) (name : string) : string :=
  default "" (environ e !! name).

Definition controllerDomain (e : Env) : string :=
  flag_Var (arg_controller_domain (cmdline e)) "k8s.checklyhq.com".

Definition declarative (k : Kind) : bool :=
  match k with Ingress => false | _ => true end.

(** The same surroundings with other reconcile results during [mgr.Start]. *)
Definition with_reconciles (rs : list (Kind * option ErrorKind)) (e : Env)
    : Env :=
  {| cmdline := cmdline e; getConfig_ok := getConfig_ok e;
     newManager_err := newManager_err e; environ := environ e;
     setupWithManager_err := setupWithManager_err e;
     addHealthzCheck_err := addHealthzCheck_err e;
     addReadyzCheck_err := addReadyzCheck_err e;
     start_reconciles := rs; start_err := start_err e |}.

(** Sample surroundings: a cluster is reachable and every registration
    succeeds; what varies is the flag, the manager construction, the
    environment variables and what [mgr.Start] does. *)
Definition sample_env (domain : option string) (mgr_err : option string)
    (vars : gmap string string) (rs : list (Kind * option ErrorKind))
    (start : option string) : Env :=
  {| cmdline := {| arg_metrics_bind_address := None;
                   arg_health_probe_bind_address := None;
                   arg_leader_elect := None;
                   arg_controller_domain := domain |};
     getConfig_ok := true;
     newManager_err := mgr_err;
     environ := vars;
     setupWithManager_err := fun _ => None;
     addHealthzCheck_err := None;
     addReadyzCheck_err := None;
     start_reconciles := rs;
     start_err := start |}.

Definition credentials : gmap string string :=
  {[ "CHECKLY_API_KEY" := "key-123"; "CHECKLY_ACCOUNT_ID" := "acct-9" ]}.

(** A healthy run that the manager ends without error. *)
Definition env_healthy : Env :=
  sample_env None None credentials [(ApiCheck, Some TransientError)] None.

(** The manager reconciles for a while, then [mgr.Start] returns an error. *)
Definition env_manager_fails_late : Env :=
  sample_env None None credentials
    [(ApiCheck, None); (Group, Some TransientError)]
    (Some "leader election lost").

(** The API key is not set. *)
Definition env_no_api_key : Env :=
  sample_env None None {[ "CHECKLY_ACCOUNT_ID" := "acct-9" ]} [] None.

(** The API key is not set and the manager cannot be constructed. *)
Definition env_no_api_key_no_manager : Env :=
  sample_env None (Some "no cluster") {[ "CHECKLY_ACCOUNT_ID" := "acct-9" ]}
    [] None.

End Cmd.

(* ===================================================================== *)
(** * Part II: the reconciliation core                                   *)
(* ===================================================================== *)

Module Core.

(** ** Data model (design document, section 3) *)

Inductive CondState := CondTrue | CondFalse | CondUnknown.

Record Condition := {
  cond_type   : string;
  cond_state  : CondState;
  cond_reason : string
}.

Record Status := {
  externalId         : option string;
  observedGeneration : nat;
  conditions         : list Condition
}.

Record DeclaredResource (Spec : Type) := {
  spec              : Spec;
  status            : Status;
  deletionRequested : bool;
  finalizers        : gset string;
  generation        : nat
}.
Arguments spec {Spec} _.
Arguments status {Spec} _.
Arguments deletionRequested {Spec} _.
Arguments finalizers {Spec} _.
Arguments generation {Spec} _.

(** ** The external monitoring API (section 6) *)

Inductive Fault := Transient | Conflict.

Inductive Call (Repr : Type) :=
| CallCreate (r : Repr)
| CallRead (id : string)
| CallUpdate (id : string) (r : Repr)
| CallDelete (id : string).
Arguments CallCreate {Repr} r.
Arguments CallRead {Repr} id.
Arguments CallUpdate {Repr} id r.
Arguments CallDelete {Repr} id.

Definition is_write {Repr} (c : Call Repr) : bool :=
  match c with CallRead _ => false | _ => true end.

(** The external side: the resources it holds by id, how many ids it has
    handed out, the log of calls received, and a script that says which of
    the coming calls fail ([Some f]) instead of being served. *)
Record World (Repr : Type) := {
  ext    : gmap string Repr;
  issued : nat;
  script : list (option Fault);
  calls  : list (Call Repr)
}.
Arguments ext {Repr} _.
Arguments issued {Repr} _.
Arguments script {Repr} _.
Arguments calls {Repr} _.

Inductive DeleteReply := Deleted | NotFound.

Definition mk_id (n : nat) : string := "ext-" +:+ pretty n.

Definition with_script {Repr} (sc : list (option Fault)) (w : World Repr)
    : World Repr :=
  {| ext := ext w; issued := issued w; script := sc; calls := calls w |}.

Definition with_ext {Repr} (m : gmap string Repr) (w : World Repr)
    : World Repr :=
  {| ext := m; issued := issued w; script := script w; calls := calls w |}.

(** Every call is logged and consumes one entry of the script. *)
Definition begin_call {Repr} (c : Call Repr) (w : World Repr)
    : option Fault * World Repr :=
  (mjoin (head (script w)),
   {| ext := ext w; issued := issued w; script := tail (script w);
      calls := calls w ++ [c] |}).

Definition api_create {Repr} (r : Repr) (w : World Repr)
    : World Repr * (Fault + string) :=
  match begin_call (CallCreate r) w with
  | (Some f, w1) => (w1, inl f)
  | (None, w1) =>
      let id := mk_id (S (issued w1)) in
      ({| ext := <[id := r]> (ext w1); issued := S (issued w1);
          script := script w1; calls := calls w1 |}, inr id)
  end.

Definition api_read {Repr} (id : string) (w : World Repr)
    : World Repr * (Fault + option Repr) :=
  match begin_call (CallRead id) w with
  | (Some f, w1) => (w1, inl f)
  | (None, w1) => (w1, inr (ext w1 !! id))
  end.

Definition api_update {Repr} (id : string) (r : Repr) (w : World Repr)
    : World Repr * (Fault + unit) :=
  match begin_call (CallUpdate id r) w with
  | (Some f, w1) => (w1, inl f)
  | (None, w1) => (with_ext (<[id := r]> (ext w1)) w1, inr tt)
  end.

Definition api_delete {Repr} (id : string) (w : World Repr)
    : World Repr * (Fault + DeleteReply) :=
  match begin_call (CallDelete id) w with
  | (Some f, w1) => (w1, inl f)
  | (None, w1) =>
      match ext w1 !! id with
      | Some _ => (with_ext (delete id (ext w1)) w1, inr Deleted)
      | None => (w1, inr NotFound)
      end
  end.

(** ** ReconcileLoop and FinalizerManager (sections 4.2, 4.3) *)

Inductive Stage := StageDeleting | StageSyncing.

Inductive Outcome :=
| Ok
| Retry (st : Stage) (f : Fault)
| InvalidSpec.

Definition set_condition (c : Condition) (l : list Condition)
    : list Condition :=
  c :: filter (fun c' => cond_type c' ≠ cond_type c) l.

Definition ready_true : Condition :=
  {| cond_type := "Ready"; cond_state := CondTrue; cond_reason := "Synced" |}.

Definition ready_invalid : Condition :=
  {| cond_type := "Ready"; cond_state := CondFalse;
     cond_reason := "InvalidSpec" |}.

(** A property of the external side that every operation of the client
    keeps, whatever its arguments and whether it succeeds or fails. *)
Definition client_preserves {Repr} (I : World Repr -> Prop) : Prop :=
  (∀ r w, I w -> I (api_create r w).1) ∧
  (∀ id w, I w -> I (api_read id w).1) ∧
  (∀ id r w, I w -> I (api_update id r w).1) ∧
  (∀ id w, I w -> I (api_delete id w).1).

(** The error kind of section 7 an invocation's outcome stands for; a
    NotFound on delete is a success and gives no error. *)
Definition error_of (out : Outcome) : option Cmd.ErrorKind :=
  match out with
  | Ok => None
  | Retry _ Transient => Some Cmd.TransientError
  | Retry _ Conflict => Some Cmd.ConflictError
  | InvalidSpec => Some Cmd.ValidationError
  end.

Section Loop.
Context {Spec Repr : Type} `{EqDecision Repr}.

(** Modelled from the spec: the ResourceMapper of one resource kind
    (section 4.1), pure and deterministic; [None] is its validation error.
    The mappers live in [internal/controller/checkly], not at hand. *)
Variable toExternal : Spec -> option Repr.

(** The core's finalizer (built from the controller domain). *)
Variable fin : string.

(** The bound on immediate retries after a conflict (section 4.2, step 6). *)
Variable max_conflict_retries : nat.

Definition add_finalizer (obj : DeclaredResource Spec) : DeclaredResource Spec :=
  {| spec := spec obj; status := status obj;
     deletionRequested := deletionRequested obj;
     finalizers := {[fin]} ∪ finalizers obj;
     generation := generation obj |}.

(** Step 1, on success: clear [externalId] and remove the finalizer. *)
Definition finish_delete (obj : DeclaredResource Spec) : DeclaredResource Spec :=
  {| spec := spec obj;
     status := {| externalId := None;
                  observedGeneration := observedGeneration (status obj);
                  conditions := conditions (status obj) |};
     deletionRequested := deletionRequested obj;
     finalizers := finalizers obj ∖ {[fin]};
     generation := generation obj |}.

Definition with_status (st : Status) (obj : DeclaredResource Spec)
    : DeclaredResource Spec :=
  {| spec := spec obj; status := st;
     deletionRequested := deletionRequested obj;
     finalizers := finalizers obj; generation := generation obj |}.

(** The status after a successful create or update under id [id]. *)
Definition mark_synced (id : string) (obj : DeclaredResource Spec)
    : DeclaredResource Spec :=
  with_status {| externalId := Some id;
                 observedGeneration := generation obj;
                 conditions := set_condition ready_true
                                 (conditions (status obj)) |} obj.

(** Step 4: the validation error is recorded for this generation. *)
Definition mark_invalid (obj : DeclaredResource Spec) : DeclaredResource Spec :=
  with_status {| externalId := externalId (status obj);
                 observedGeneration := generation obj;
                 conditions := set_condition ready_invalid
                                 (conditions (status obj)) |} obj.

(** Modelled from the spec: step 1 of the reconcile algorithm (section
    4.2), the deletion path of the per-kind reconcilers, whose sources
    ([internal/controller/checkly]) are not at hand.  An empty [externalId] needs no call; a [NotFound] reply
    counts as success; a failed call leaves the object as it was. *)
Definition reconcile_delete (obj : DeclaredResource Spec) (w : World Repr)
    : DeclaredResource Spec * World Repr * Outcome :=
  match externalId (status obj) with
  | None => (finish_delete obj, w, Ok)
  | Some id =>
      match api_delete id w with
      | (w', inr Deleted) => (finish_delete obj, w', Ok)
      | (w', inr NotFound) => (finish_delete obj, w', Ok)
      | (w', inl f) => (obj, w', Retry StageDeleting f)
      end
  end.

(** Modelled from the spec: step 3 of the reconcile algorithm with the
    error handling of steps 5 and 6, for the missing [Reconcile] methods
    of [internal/controller/checkly].  A conflict is retried at once while
    retries remain ([fuel] counts them); any other failed call, or a
    conflict with no retry left, is handed back to the caller with the
    object unchanged. *)
Fixpoint sync_external (fuel : nat) (desired : Repr)
    (obj : DeclaredResource Spec) (w : World Repr)
    : DeclaredResource Spec * World Repr * Outcome :=
  let failed (f : Fault) (w' : World Repr) :=
    match f, fuel with
    | Conflict, S n => sync_external n desired obj w'
    | _, _ => (obj, w', Retry StageSyncing f)
    end in
  match externalId (status obj) with
  | None =>
      match api_create desired w with
      | (w1, inr id) => (mark_synced id obj, w1, Ok)
      | (w1, inl f) => failed f w1
      end
  | Some id =>
      match api_read id w with
      | (w1, inl f) => failed f w1
      | (w1, inr cur) =>
          if decide (cur = Some desired) then (obj, w1, Ok)
          else
            match api_update id desired w1 with
            | (w2, inr _) => (mark_synced id obj, w2, Ok)
            | (w2, inl f) => failed f w2
            end
      end
  end.

(** Modelled from the spec: one reconcile invocation (section 4.2, steps
    1 to 6), standing for the missing [Reconcile] methods of the ApiCheck,
    Group and AlertChannel reconcilers.  Steps 1 and 2 name three of the four combinations of
    [deletionRequested] and the finalizer; the fourth (deletion requested,
    finalizer already gone) has nothing left to clean up and is left
    alone.  Step 2's "add finalizer, then re-invoke" continues with step 3
    on the object that now carries the finalizer. *)
Definition reconcile (obj : DeclaredResource Spec) (w : World Repr)
    : DeclaredResource Spec * World Repr * Outcome :=
  if deletionRequested obj then
    if decide (fin ∈ finalizers obj) then reconcile_delete obj w
    else (obj, w, Ok)
  else
    let obj1 := add_finalizer obj in
    match toExternal (spec obj1) with
    | None => (mark_invalid obj1, w, InvalidSpec)
    | Some desired => sync_external max_conflict_retries desired obj1 w
    end.

(** Modelled from the spec: one reconcile invocation for the object
    stored under key [k] (sections 4.2 and 5: invocations are per object
    key, the persisted record is the source of truth); the work queue and
    the store are not at hand.  An object that is gone needs nothing. *)
Definition reconcile_in_store (k : string)
    (store : gmap string (DeclaredResource Spec)) (w : World Repr)
    : gmap string (DeclaredResource Spec) * World Repr * Outcome :=
  match store !! k with
  | Some obj =>
      let '(obj', w', out) := reconcile obj w in
      (<[k := obj']> store, w', out)
  | None => (store, w, Ok)
  end.

(** The [Synced] state of section 4.2: an external resource is recorded
    and holds exactly the desired representation. *)
Definition Synced (obj : DeclaredResource Spec) (w : World Repr) : Prop :=
  deletionRequested obj = false ∧
  ∃ id desired,
    externalId (status obj) = Some id ∧
    toExternal (spec obj) = Some desired ∧
    ext w !! id = Some desired.

(** The external write calls (create, update, delete) in a call log. *)
Definition writes (l : list (Call Repr)) : list (Call Repr) :=
  filter (fun c => is_write c = true) l.

(** ** The cluster store around one declared resource *)

Inductive Slot :=
| Present (obj : DeclaredResource Spec)
| Gone (last : DeclaredResource Spec).

Definition edit_spec (s : Spec) (obj : DeclaredResource Spec)
    : DeclaredResource Spec :=
  {| spec := s; status := status obj;
     deletionRequested := deletionRequested obj;
     finalizers := finalizers obj; generation := S (generation obj) |}.

Definition request_deletion (obj : DeclaredResource Spec)
    : DeclaredResource Spec :=
  {| spec := spec obj; status := status obj; deletionRequested := true;
     finalizers := finalizers obj; generation := generation obj |}.

(** Modelled from the spec: what can happen to one declared resource and
    the external side (sections 3, 4.3 and 5), the cluster store and the
    work queue being outside the sources at hand: a reconcile invocation under
    any pattern of external failures, a spec edit, a deletion request, a
    change made on the external side out of band, and the store's physical
    removal, which it performs only for an object whose deletion was
    requested and that no longer carries the core's finalizer. *)
Inductive step : Slot * World Repr -> Slot * World Repr -> Prop :=
| step_reconcile obj w sc obj' w' out :
    reconcile obj (with_script sc w) = (obj', w', out) ->
    step (Present obj, w) (Present obj', w')
| step_edit obj w s :
    step (Present obj, w) (Present (edit_spec s obj), w)
| step_request_deletion obj w :
    step (Present obj, w) (Present (request_deletion obj), w)
| step_out_of_band slot w m :
    step (slot, w) (slot, with_ext m w)
| step_remove obj w :
    deletionRequested obj = true ->
    fin ∉ finalizers obj ->
    step (Present obj, w) (Gone obj, w).

(** The ordering invariant: an external id is recorded only on an object that carries the core's
    finalizer. *)
Definition guarded (obj : DeclaredResource Spec) : Prop :=
  is_Some (externalId (status obj)) -> fin ∈ finalizers obj.

(** The invariant on the store slot of one object. *)
Definition ordered (st : Slot * World Repr) : Prop :=
  match st.1 with
  | Present obj => guarded obj
  | Gone last => externalId (status last) = None
  end.

End Loop.

(** ** A sample resource kind: a check described by its frequency *)

(** A mapper with a validation error: frequency 0 is not a valid spec. *)
Definition sample_mapper (freq : nat) : option nat :=
  if decide (freq = 0) then None else Some freq.

Definition sample_finalizer : string := "k8s.checklyhq.com/finalizer".

Definition sample_reconcile :=
  reconcile sample_mapper sample_finalizer 3.

(** A check as its author created it, and an external side with nothing
    on it and no failures ahead. *)
Definition check_created : DeclaredResource nat :=
  {| spec := 60;
     status := {| externalId := None; observedGeneration := 0;
                  conditions := [] |};
     deletionRequested := false; finalizers := ∅; generation := 1 |}.

Definition world_empty : World nat :=
  {| ext := ∅; issued := 0; script := []; calls := [] |}.

(** After the first reconcile (scenario A). *)
Definition check_synced : DeclaredResource nat :=
  (sample_reconcile check_created world_empty).1.1.

Definition world_synced : World nat :=
  (sample_reconcile check_created world_empty).1.2.

(** Deletion requested, then reconciled (scenario C). *)
Definition check_deleting : DeclaredResource nat :=
  request_deletion check_synced.

Definition check_cleaned : DeclaredResource nat :=
  (sample_reconcile check_deleting world_synced).1.1.

Definition world_cleaned : World nat :=
  (sample_reconcile check_deleting world_synced).1.2.

(** A check on the deletion path whose external resource is already gone. *)
Definition check_orphaned : DeclaredResource nat :=
  {| spec := 60;
     status := {| externalId := Some "ext-404"; observedGeneration := 1;
                  conditions := [] |};
     deletionRequested := true;
     finalizers := {[ sample_finalizer ]}; generation := 1 |}.

(** ** AnnotationScanner and DerivedResourceSynchronizer (4.4, 4.5) *)

(** An ingress object as this system reads it: its annotation map and its
    rules.  Objects are identified by their namespaced name. *)
Record IngressSource (Rule : Type) := {
  annotations : gmap string string;
  rules       : list Rule
}.
Arguments annotations {Rule} _.
Arguments rules {Rule} _.

(** A derived Check: the spec generated for it, and whether its deletion
    has been requested (the reconcile loop's finalizer path then removes
    it). *)
Record DerivedCheck (CheckSpec : Type) := {
  d_spec              : CheckSpec;
  d_deletionRequested : bool
}.
Arguments d_spec {CheckSpec} _.
Arguments d_deletionRequested {CheckSpec} _.

(** The ingress objects present, by name, and the index of derived checks
    by owner-key (ingress name, rule key). *)
Record Cluster (Rule CheckSpec : Type) := {
  ingresses : gmap string (IngressSource Rule);
  checks    : gmap (string * string) (DerivedCheck CheckSpec)
}.
Arguments ingresses {Rule CheckSpec} _.
Arguments checks {Rule CheckSpec} _.

Section Derived.
Context {Rule CheckSpec : Type}.

(** The configured annotation-domain prefix. *)
Variable domainPrefix : string.

(** Modelled from the spec: the AnnotationScanner (section 4.4), a pure
    function of the prefix, the annotation map and the rules; it yields
    the candidate Check specs by rule key.  The scanner lives in
    [internal/controller/networking], not at hand. *)
Variable scanner :
  string -> gmap string string -> list Rule -> gmap string CheckSpec.

(** An ingress is annotation-matching when one of its annotation keys
    starts with the prefix. *)
Definition annotation_matching (ing : IngressSource Rule) : bool :=
  existsb (fun kv => String.prefix domainPrefix kv.1)
          (map_to_list (annotations ing)).

(** The specs wanted for ingress [x] at its current observed state: the
    scanner's output for a present, annotation-matching ingress, nothing
    otherwise. *)
Definition desired_of (cl : Cluster Rule CheckSpec) (x : string)
    : gmap string CheckSpec :=
  match ingresses cl !! x with
  | Some ing =>
      if annotation_matching ing
      then scanner domainPrefix (annotations ing) (rules ing)
      else ∅
  | None => ∅
  end.

Definition live_check (s : CheckSpec) : DerivedCheck CheckSpec :=
  {| d_spec := s; d_deletionRequested := false |}.

(** An owned check against what is wanted under its key: no longer wanted,
    its deletion is requested; wanted, it takes the wanted spec, unless it
    is already on its way out, which the synchronizer cannot undo. *)
Definition sync_entry (want : option CheckSpec) (c : DerivedCheck CheckSpec)
    : DerivedCheck CheckSpec :=
  match want with
  | None => {| d_spec := d_spec c; d_deletionRequested := true |}
  | Some s => if d_deletionRequested c then c else live_check s
  end.

(** Modelled from the spec: the DerivedResourceSynchronizer handling one
    event for ingress [x] (section 4.5), standing for the missing
    [Reconcile] of [internal/controller/networking]: diff the wanted set against the
    checks owned by [x] by owner-key, update or mark the owned ones, and
    create the missing ones. *)
Definition sync (x : string) (cl : Cluster Rule CheckSpec)
    : Cluster Rule CheckSpec :=
  let des := desired_of cl x in
  {| ingresses := ingresses cl;
     checks :=
       map_imap (fun k c =>
                   Some (if decide (k.1 = x) then sync_entry (des !! k.2) c
                         else c))
                (checks cl)
       ∪ kmap (pair x) (live_check <$> des) |}.

(** What is wanted under an owner-key at the cluster's current state. *)
Definition wanted (cl : Cluster Rule CheckSpec) (k : string * string)
    : option CheckSpec :=
  desired_of cl k.1 !! k.2.

(** What one event for the owning ingress does to the entry under one of
    its owner-keys: an existing check is updated or marked, a missing one
    is created when wanted. *)
Definition sync_slot (want : option CheckSpec)
    (o : option (DerivedCheck CheckSpec)) : option (DerivedCheck CheckSpec) :=
  match o with
  | Some c => Some (sync_entry want c)
  | None => live_check <$> want
  end.

(** The reconcile loop's deletion path running to completion: every check
    whose deletion was requested leaves the store. *)
Definition finalize_all (cl : Cluster Rule CheckSpec)
    : Cluster Rule CheckSpec :=
  {| ingresses := ingresses cl;
     checks := filter (fun kc => d_deletionRequested kc.2 = false)
                      (checks cl) |}.

(** Every ingress name the synchronizer can receive an event for: the
    present ones and the owners of existing derived checks. *)
Definition owners (cl : Cluster Rule CheckSpec) : list string :=
  elements (dom (ingresses cl) ∪ set_map fst (dom (checks cl))).

Definition sync_all (xs : list string) (cl : Cluster Rule CheckSpec)
    : Cluster Rule CheckSpec :=
  foldr sync cl xs.

(** A schedule that brings any cluster to rest: a pass over all owners,
    the pending deletions completing, and a second pass. *)
Definition settle (cl : Cluster Rule CheckSpec) : Cluster Rule CheckSpec :=
  let xs := owners cl in
  sync_all xs (finalize_all (sync_all xs cl)).

(** The synchronizer has quiesced: a pass over all owners changes
    nothing. *)
Definition quiescent (cl : Cluster Rule CheckSpec) : Prop :=
  sync_all (owners cl) cl = cl.

(** No derived check is waiting for the reconcile loop's deletion path. *)
Definition no_pending (cl : Cluster Rule CheckSpec) : Prop :=
  finalize_all cl = cl.

(** The index holds exactly one live check per wanted owner-key, with the
    wanted spec. *)
Definition converged (cl : Cluster Rule CheckSpec) : Prop :=
  ∀ k, checks cl !! k = live_check <$> wanted cl k.

(** The owner-keys of the live derived checks. *)
Definition live_keys (cl : Cluster Rule CheckSpec) : gset (string * string) :=
  dom (filter (fun kc => d_deletionRequested kc.2 = false) (checks cl)).

(** The image of the scanner over the present, annotation-matching
    ingress objects. *)
Definition scanned (cl : Cluster Rule CheckSpec) (k : string * string)
    : Prop :=
  ∃ ing,
    ingresses cl !! k.1 = Some ing ∧
    annotation_matching ing = true ∧
    k.2 ∈ dom (scanner domainPrefix (annotations ing) (rules ing)).

End Derived.

(** ** A sample scanner and cluster (scenario D) *)

Definition sample_prefix : string := "k8s.checklyhq.com/".

(** One candidate per rule of an ingress that carries the [check-url]
    annotation, keyed [rule-0], [rule-1], ... *)
Definition sample_scanner (prefix : string) (ann : gmap string string)
    (rs : list string) : gmap string string :=
  match ann !! (prefix +:+ "check-url") with
  | Some url =>
      list_to_map (imap (fun i (_ : string) => ("rule-" +:+ pretty i, url)) rs)
  | None => ∅
  end.

(** Ingress [ingress-b] carries the annotation and has one rule; a check
    derived from an ingress that is gone is still in the index. *)
Definition cluster_D : Cluster string string :=
  {| ingresses :=
       {[ "ingress-b" :=
            {| annotations :=
                 {[ "k8s.checklyhq.com/check-url" := "https://b.example" ]};
               rules := ["b.example/"] |} ]};
     checks :=
       {[ ("ingress-a", "rule-0") :=
            {| d_spec := "https://a.example";
               d_deletionRequested := false |} ]} |}.

Definition cluster_D_settled : Cluster string string :=
  settle sample_prefix sample_scanner cluster_D.

(** The owner of an ingress edits it: the object is replaced. *)
Definition put_ingress {Rule CheckSpec : Type} (x : string)
    (ing : IngressSource Rule) (cl : Cluster Rule CheckSpec)
    : Cluster Rule CheckSpec :=
  {| ingresses := <[x := ing]> (ingresses cl); checks := checks cl |}.

Definition ingress_b_annotated : IngressSource string :=
  {| annotations :=
       {[ "k8s.checklyhq.com/check-url" := "https://b.example" ]};
     rules := ["b.example/"] |}.

Definition ingress_b_bare : IngressSource string :=
  {| annotations := ∅; rules := ["b.example/"] |}.

(** From the settled cluster: the annotation of [ingress-b] is removed and
    the synchronizer runs (the derived check's deletion is requested); the
    annotation is put back and the synchronizer runs again, before the
    reconcile loop has removed the check. *)
Definition cluster_pending : Cluster string string :=
  sync sample_prefix sample_scanner "ingress-b"
    (put_ingress "ingress-b" ingress_b_annotated
       (sync sample_prefix sample_scanner "ingress-b"
          (put_ingress "ingress-b" ingress_b_bare cluster_D_settled))).

End Core.

(* ===================================================================== *)
(** * Part I, continued: [func init()] and further observations on main  *)
(* ===================================================================== *)

Module Startup.
Import Cmd.

(** ** [func init()] (lines 50-55)

    The package-level [scheme] is filled in before [main] runs: the
    client-go types first, then the checkly v1alpha1 types.
    [utilruntime.Must] panics on an error. *)

Inductive SchemeGroup := ClientGoScheme | ChecklyV1alpha1.

(** The answers of the two [AddToScheme] functions. *)
Record InitEnv := { addToScheme_err : SchemeGroup -> option string }.

Inductive InitEvent :=
| EvAddToScheme (g : SchemeGroup)
| EvPanic (err : string).

(** What [init] has done so far and which groups the scheme holds. *)
Record InitState := {
  init_trace    : list InitEvent;
  scheme_groups : list SchemeGroup
}.

(** A computation of [init]: [None] when it panicked. *)
Definition IM (A : Type) : Type := InitState -> InitState * option A.

#[global] Instance IM_ret : MRet IM := fun A a s => (s, Some a).
#[global] Instance IM_bind : MBind IM := fun A B k m s =>
  match m s with
  | (s', Some a) => k a s'
  | (s', None) => (s', None)
  end.

(** [clientgoscheme.AddToScheme(scheme)] and
    [checklyv1alpha1.AddToScheme(scheme)]: on success the group's types are
    in the scheme. *)
Definition AddToScheme (ie : InitEnv) (g : SchemeGroup) : IM (option string) :=
  fun s =>
    ({| init_trace := init_trace s ++ [EvAddToScheme g];
        scheme_groups :=
          match addToScheme_err ie g with
          | None => scheme_groups s ++ [g]
          | Some _ => scheme_groups s
          end |},
     Some (addToScheme_err ie g)).

(** [utilruntime.Must(err)] *)
Definition utilruntime_Must (err : option string) : IM unit :=
  fun s =>
    match err with
    | Some x =>
        ({| init_trace := init_trace s ++ [EvPanic x];
            scheme_groups := scheme_groups s |}, None)
    | None => (s, Some tt)
    end.

Definition init (ie : InitEnv) : IM unit :=
  err ← AddToScheme ie ClientGoScheme;
  utilruntime_Must err ;;
  err ← AddToScheme ie ChecklyV1alpha1;
  utilruntime_Must err.

(** How the process ends: a panic in [init], or whatever [main] does. *)
Inductive ProcessEnd :=
| Panicked
| Finished (r : Result unit).

(** The whole process: [init], then [main] unless [init] panicked. *)
Definition process (ie : InitEnv) (e : Env)
    : InitState * list Event * ProcessEnd :=
  match init ie {| init_trace := []; scheme_groups := [] |} with
  | (s, None) => (s, [], Panicked)
  | (s, Some _) => (s, run_trace e, Finished (run_result e))
  end.

(** ** Further observations on a trace of main *)

Definition managers_constructed (t : list Event) : list ManagerOptions :=
  omap (fun ev => match ev with EvNewManager o => Some o | _ => None end) t.

Definition env_reads (t : list Event) : list string :=
  omap (fun ev => match ev with EvGetenv n => Some n | _ => None end) t.

Definition errors_logged (t : list Event)
    : list (string * string * list (string * string)) :=
  omap (fun ev => match ev with
                  | EvLogError x m kvs => Some (x, m, kvs)
                  | _ => None end) t.

Definition probes (t : list Event) : list Event :=
  omap (fun ev => match ev with
                  | EvAddHealthzCheck _ | EvAddReadyzCheck _ => Some ev
                  | _ => None end) t.

Definition account_ids_set (t : list Event) : list (ClientRef * string) :=
  omap (fun ev => match ev with
                  | EvSetAccountId ref a => Some (ref, a)
                  | _ => None end) t.

Definition is_set_account (ev : Event) : bool :=
  match ev with EvSetAccountId _ _ => true | _ => false end.

(** The part of a trace before the account id is set on a client (the
    whole trace when it never is). *)
Fixpoint before_account_id (t : list Event) : list Event :=
  match t with
  | [] => []
  | ev :: t' => if is_set_account ev then [] else ev :: before_account_id t'
  end.

(** The name main logs for a controller that could not be created. *)
Definition kind_name (k : Kind) : string :=
  match k with
  | Ingress => "Ingress"
  | ApiCheck => "ApiCheck"
  | Group => "Group"
  | AlertChannel => "AlertChannel"
  end.

(** The kinds main registers before kind [k], in order. *)
Definition kinds_before (k : Kind) : list Kind :=
  match k with
  | Ingress => []
  | ApiCheck => [Ingress]
  | Group => [Ingress; ApiCheck]
  | AlertChannel => [Ingress; ApiCheck; Group]
  end.

(** A manager was obtained: the cluster configuration loaded and
    [ctrl.NewManager] returned no error. *)
Definition manager_constructed (e : Env) : bool :=
  getConfig_ok e && bool_decide (newManager_err e = None).

(** Every step of the wiring before [mgr.Start] succeeds. *)
Definition wiring_ok (e : Env) : Prop :=
  getConfig_ok e = true ∧
  newManager_err e = None ∧
  getenv e "CHECKLY_API_KEY" ≠ "" ∧
  getenv e "CHECKLY_ACCOUNT_ID" ≠ "" ∧
  (∀ k, setupWithManager_err e k = None) ∧
  addHealthzCheck_err e = None ∧
  addReadyzCheck_err e = None.

(** The options main passes to [ctrl.NewManager]. *)
Definition manager_options (e : Env) : ManagerOptions :=
  {| Scheme := scheme;
     MetricsBindAddress :=
       default ":8080" (arg_metrics_bind_address (cmdline e));
     HealthProbeBindAddress :=
       default ":8081" (arg_health_probe_bind_address (cmdline e));
     LeaderElection := default false (arg_leader_elect (cmdline e));
     LeaderElectionID := "4e7eab13.checklyhq.com" |}.

(** The client object that a call made through the [ApiClient] field of
    reconciler [r] reaches, in heap [h]; [None] when the field is nil: the
    reconciler holds no external client to call. *)
Definition external_client (h : list ChecklyClient) (r : Reconciler)
    : option ChecklyClient :=
  ref ← apiClientOf r; h !! ref.

(** The client main builds at lines 105-112 from the environment. *)
Definition client_from_env (e : Env) : ChecklyClient :=
  {| cl_baseUrl := "https://api.checklyhq.com";
     cl_apiKey := getenv e "CHECKLY_API_KEY";
     cl_httpClient := None;
     cl_debug := None;
     cl_accountId := getenv e "CHECKLY_ACCOUNT_ID" |}.

(** The struct literal main builds for kind [k] (lines 114-148), for
    domain [d] and client reference [ref]. *)
Definition reconciler_literal (d : string) (ref : ClientRef) (k : Kind)
    : Reconciler :=
  match k with
  | Ingress => IngressReconciler mgr_GetClient mgr_GetScheme d
  | ApiCheck => ApiCheckReconciler mgr_GetClient mgr_GetScheme ref d
  | Group => GroupReconciler mgr_GetClient mgr_GetScheme ref d
  | AlertChannel => AlertChannelReconciler mgr_GetClient mgr_GetScheme ref d
  end.

(** The position of kind [k] among main's registrations. *)
Definition position (k : Kind) : nat := List.length (kinds_before k).

(** Sample surroundings: the flag [-controller-domain] is given. *)
Definition env_custom_domain : Env :=
  sample_env (Some "monitoring.example.org") None credentials [] None.

(** The two errors main logs for a missing credential. *)
Definition api_key_undefined : string * string * list (string * string) :=
  ("checklyhq.com API key environment variable is undefined",
   "checklyhq.com credentials missing", []).

Definition account_id_undefined : string * string * list (string * string) :=
  ("checklyhq.com Account ID environment variable is undefined",
   "checklyhq.com credentials missing", []).

(** Sample surroundings: the Group controller cannot be created. *)
Definition env_group_fails : Env :=
  {| cmdline := cmdline env_healthy;
     getConfig_ok := true;
     newManager_err := None;
     environ := credentials;
     setupWithManager_err :=
       fun k => match k with Group => Some "no CRD" | _ => None end;
     addHealthzCheck_err := None;
     addReadyzCheck_err := None;
     start_reconciles := [];
     start_err := None |}.

(** Sample: both scheme registrations succeed; the second one fails. *)
Definition init_ok : InitEnv := {| addToScheme_err := fun _ => None |}.

Definition init_checkly_fails : InitEnv :=
  {| addToScheme_err :=
       fun g => match g with
                | ChecklyV1alpha1 => Some "duplicate type"
                | ClientGoScheme => None
                end |}.

End Startup.

(* ===================================================================== *)
(** * Part III: properties of cmd/main.go                                *)
(* ===================================================================== *)

Module CmdSpec.
Import Cmd.

(** ** Symbolic execution of [main] *)

Lemma emit_all_run (evs : list Event) (s : State) :
  emit_all evs s = ({| trace := trace s ++ evs; heap := heap s |}, Ret tt).
Proof.
  revert s. induction evs as [|ev evs IH]; intros [t h]; simpl.
  - by rewrite app_nil_r.
  - unfold mbind, M_bind, bind, emit; simpl. rewrite IH; simpl.
    by rewrite <- app_assoc.
Qed.

Lemma registered_app (t1 t2 : list Event) :
  registered (t1 ++ t2) = registered t1 ++ registered t2.
Proof. apply omap_app. Qed.

Lemma clients_created_app (t1 t2 : list Event) :
  clients_created (t1 ++ t2) = clients_created t1 ++ clients_created t2.
Proof. apply omap_app. Qed.

Lemma registered_reconciles (l : list (Kind * option ErrorKind)) :
  registered (map (fun kr => EvReconcile kr.1 kr.2) l) = [].
Proof. induction l; simpl; auto. Qed.

Lemma clients_created_reconciles (l : list (Kind * option ErrorKind)) :
  clients_created (map (fun kr => EvReconcile kr.1 kr.2) l) = [].
Proof. induction l; simpl; auto. Qed.

Lemma existsb_start_reconciles (l : list (Kind * option ErrorKind)) :
  existsb is_start (map (fun kr => EvReconcile kr.1 kr.2) l) = false.
Proof. induction l; simpl; auto. Qed.

Lemma before_start_reconciles (l : list (Kind * option ErrorKind)) t :
  before_start (map (fun kr => EvReconcile kr.1 kr.2) l ++ t) =
  map (fun kr => EvReconcile kr.1 kr.2) l ++ before_start t.
Proof. induction l; simpl; [done|]. by f_equal. Qed.

Ltac observe :=
  rewrite ?emit_all_run, ?registered_app, ?clients_created_app,
    ?registered_reconciles, ?clients_created_reconciles, ?existsb_app,
    ?existsb_start_reconciles in *.

Ltac unfold_run :=
  unfold manager_started, run_result, run_trace, run_heap, getenv,
    controllerDomain, run, main, ctrl_GetConfigOrDie, ctrl_NewManager,
    os_Getenv, checkly_NewClient, client_SetAccountId, SetupWithManager,
    mgr_AddHealthzCheck, mgr_AddReadyzCheck, mgr_Start, exit_on_error,
    setupLog_Info, setupLog_Error, os_Exit, emit, mret, M_ret, ret,
    mbind, M_bind, bind in *;
  simpl in *.

(** One decision of [main]: case on the answer it branches on. *)
Ltac branch :=
  match goal with
  | |- context [decide (?x = "")] => destruct (decide (x = "")) as [?|?]
  | |- context [if getConfig_ok ?e then _ else _] =>
      destruct (getConfig_ok e) eqn:?
  | |- context [match newManager_err ?e with _ => _ end] =>
      destruct (newManager_err e) eqn:?
  | |- context [match setupWithManager_err ?e ?k with _ => _ end] =>
      destruct (setupWithManager_err e k) eqn:?
  | |- context [match addHealthzCheck_err ?e with _ => _ end] =>
      destruct (addHealthzCheck_err e) eqn:?
  | |- context [match addReadyzCheck_err ?e with _ => _ end] =>
      destruct (addReadyzCheck_err e) eqn:?
  | |- context [match start_err ?e with _ => _ end] =>
      destruct (start_err e) eqn:?
  end; simpl in *; observe; simpl in *.

Ltac run_cases := unfold_run; repeat branch.

(** ** The registered reconcilers *)

Definition all_kinds : list Kind := [Ingress; ApiCheck; Group; AlertChannel].

(** C5: main hands the manager one reconciler per declarative kind
    (ApiCheck, Group, AlertChannel), after the Ingress one: in every run
    the kinds registered are an initial part of Ingress, ApiCheck, Group,
    AlertChannel, and whenever the manager is started all four have been
    registered, each once, before [mgr.Start] is called. *)
Theorem one_reconciler_per_kind (e : Env) :
  map kindOf (registered (run_trace e)) `prefix_of` all_kinds ∧
  (manager_started e = true ->
   map kindOf (registered (run_trace e)) = all_kinds ∧
   registered (before_start (run_trace e)) = registered (run_trace e)).
Proof.
  unfold all_kinds. split.
  - run_cases; by eexists.
  - run_cases; intros Hs; try discriminate Hs; done.
Qed.

Lemma one_reconciler_per_kind_witness :
  map kindOf (registered (run_trace env_healthy)) = all_kinds ∧
  registered (before_start (run_trace env_healthy)) =
    registered (run_trace env_healthy).
Proof.
  apply (proj2 (one_reconciler_per_kind env_healthy)). reflexivity.
Defined.

(** ** The external API client *)

(** The healthy sample run: three reconcilers, one shared client. *)
Example healthy_run_clients :
  map apiClientOf (registered (run_trace env_healthy)) =
    [None; Some 0; Some 0; Some 0] ∧
  run_heap env_healthy =
    [{| cl_baseUrl := "https://api.checklyhq.com"; cl_apiKey := "key-123";
        cl_httpClient := None; cl_debug := None;
        cl_accountId := "acct-9" |}].
Proof. split; reflexivity. Qed.

(** ** Process exit *)


(** How main can end: on error it exits with status 1, either before
    [mgr.Start] is called or because [mgr.Start] itself returned an error;
    when the manager was started and [mgr.Start] returns no error, main
    returns normally. *)
Lemma exit_paths (e : Env) :
  (∀ c, run_result e = Exited c ->
        c = 1%Z ∧ (manager_started e = false ∨ is_Some (start_err e))) ∧
  (manager_started e = true -> start_err e = None ->
   run_result e = Ret tt).
Proof.
  split.
  - run_cases; intros c Hc; inversion Hc; split; auto.
  - run_cases; intros Hs He; try discriminate Hs; try discriminate He; done.
Qed.




End CmdSpec.

(* ===================================================================== *)
(** * Part IV: properties of the reconciliation core                     *)
(* ===================================================================== *)

Module CoreSpec.
Import Core.

Section LoopSpec.
Context {Spec Repr : Type} `{EqDecision Repr}.
Variable toExternal : Spec -> option Repr.
Variable fin : string.
Variable retries : nat.

Local Abbreviation reconcile := (Core.reconcile toExternal fin retries).
Local Abbreviation step := (Core.step toExternal fin retries).
Local Abbreviation guarded := (Core.guarded fin).
Local Abbreviation ordered := (Core.ordered fin).

(** ** Calls and what they leave behind *)

Lemma writes_snoc_read (l : list (Call Repr)) id :
  writes (l ++ [CallRead id]) = writes l.
Proof. unfold writes. rewrite filter_app. simpl. apply app_nil_r. Qed.

Lemma api_read_spec id (w w1 : World Repr) r :
  api_read id w = (w1, r) ->
  ext w1 = ext w ∧ issued w1 = issued w ∧
  calls w1 = calls w ++ [CallRead id] ∧
  script w1 = tail (script w) ∧
  match r with
  | inl f => head (script w) = Some (Some f)
  | inr cur => cur = ext w !! id
  end.
Proof.
  unfold api_read, begin_call.
  destruct (script w) as [|[f|] sc]; simpl; intros [= <- <-]; auto.
Qed.

(** Reconciling a converged object: whatever the external side answers,
    the object and the external resources stay as they are and no write
    call goes out. *)
Lemma sync_external_converged fuel (desired : Repr)
    (obj : DeclaredResource Spec) id :
  externalId (status obj) = Some id ->
  ∀ w obj' w' out,
    ext w !! id = Some desired ->
    sync_external fuel desired obj w = (obj', w', out) ->
    obj' = obj ∧ ext w' = ext w ∧ issued w' = issued w ∧
    writes (calls w') = writes (calls w) ∧
    (script w = [] -> out = Ok ∧ calls w' = calls w ++ [CallRead id]).
Proof.
  intros Hid. induction fuel as [|n IH]; intros w obj' w' out Hext;
    simpl; rewrite Hid;
    destruct (api_read id w) as [w1 [f|cur]] eqn:Hr;
    apply api_read_spec in Hr as (He & Hi & Hc & Hs & Hres);
    try (assert (Hne : script w ≠ [])
           by (intros Hnil; rewrite Hnil in Hres; discriminate)).
  - destruct f; intros [= <- <- <-];
      rewrite Hc, writes_snoc_read; split_and!; auto; intros; done.
  - subst cur. rewrite Hext, decide_True by done. intros [= <- <- <-].
    rewrite Hc, writes_snoc_read. split_and!; auto.
  - destruct f.
    + intros [= <- <- <-].
      rewrite Hc, writes_snoc_read; split_and!; auto; intros; done.
    + intros Hrec. apply IH in Hrec as (-> & He' & Hi' & Hw' & _);
        [|by rewrite He].
      rewrite He', Hi', Hw', Hc, writes_snoc_read.
      split_and!; auto; intros; done.
  - subst cur. rewrite Hext, decide_True by done. intros [= <- <- <-].
    rewrite Hc, writes_snoc_read. split_and!; auto.
Qed.

(** C1: reconciling an object that is already Synced, with its spec
    unchanged, sends no create, update or delete call to the external API,
    whatever the external side answers; the external resources and the
    object's spec and status are left as they were, the object is still
    Synced, and when no call fails the invocation succeeds after a single
    read. *)
Theorem reconcile_synced_no_writes (obj : DeclaredResource Spec)
    (w : World Repr) :
  Synced toExternal obj w ->
  ∃ obj' w' out,
    reconcile obj w = (obj', w', out) ∧
    writes (calls w') = writes (calls w) ∧
    ext w' = ext w ∧
    spec obj' = spec obj ∧ status obj' = status obj ∧
    Synced toExternal obj' w' ∧
    (script w = [] -> out = Ok ∧ List.length (calls w') = S (List.length (calls w))).
Proof.
  intros (Hdel & id & desired & Hid & Hmap & Hext).
  unfold Core.reconcile. rewrite Hdel. simpl. rewrite Hmap.
  destruct (sync_external retries desired (add_finalizer fin obj) w)
    as [[obj' w'] out] eqn:Hs.
  eapply sync_external_converged in Hs as (-> & He & Hi & Hw & Hok);
    [|exact Hid|exact Hext].
  eexists _, _, _. split; [reflexivity|].
  split_and!; auto.
  - split; [done|]. exists id, desired. simpl. rewrite He. auto.
  - intros Hnil. destruct (Hok Hnil) as [-> ->].
    rewrite length_app. simpl. split; [done|lia].
Qed.

(** ** The deletion path *)

Lemma api_delete_not_found id (w w1 : World Repr) :
  api_delete id w = (w1, inr NotFound) ->
  ext w1 = ext w ∧ ext w !! id = None ∧
  calls w1 = calls w ++ [CallDelete id].
Proof.
  unfold api_delete, begin_call.
  destruct (script w) as [|[f|] sc]; simpl; try discriminate;
    destruct (ext w !! id) eqn:Hl; simpl; intros [= <-]; auto.
Qed.

Lemma reconcile_deleting (obj : DeclaredResource Spec) (w : World Repr) :
  deletionRequested obj = true ->
  fin ∈ finalizers obj ->
  reconcile obj w = reconcile_delete fin obj w.
Proof.
  intros Hdel Hfin. unfold Core.reconcile.
  rewrite Hdel. by destruct (decide (fin ∈ finalizers obj)).
Qed.

Lemma reconcile_after_finish (obj : DeclaredResource Spec) (w : World Repr) :
  deletionRequested obj = true ->
  reconcile (finish_delete fin obj) w = (finish_delete fin obj, w, Ok).
Proof.
  intros Hdel. unfold Core.reconcile. simpl. rewrite Hdel.
  destruct (decide (fin ∈ finalizers obj ∖ {[fin]})) as [Hin|]; [|done].
  apply elem_of_difference in Hin as [_ Hin]. by destruct Hin; apply elem_of_singleton.
Qed.

(** C4: on the deletion path (deletion requested, finalizer present), an
    empty [externalId] or a NotFound reply to the external delete is a
    success: the invocation returns without error, the finalizer is
    removed and [externalId] is empty, so the store may remove the object;
    reconciling again, on the new object or on the old one, succeeds the
    same way. *)
Theorem delete_not_found_is_success (obj : DeclaredResource Spec)
    (w : World Repr) :
  deletionRequested obj = true ->
  fin ∈ finalizers obj ->
  (externalId (status obj) = None ∨
   ∃ id w1, externalId (status obj) = Some id ∧
            api_delete id w = (w1, inr NotFound)) ->
  ∃ obj' w',
    reconcile obj w = (obj', w', Ok) ∧
    (fin ∉ finalizers obj') ∧
    externalId (status obj') = None ∧
    ext w' = ext w ∧
    step (Present obj', w') (Gone obj', w') ∧
    (∀ w2, reconcile obj' w2 = (obj', w2, Ok)) ∧
    (∃ w3, reconcile obj (with_script [] w') = (obj', w3, Ok)).
Proof.
  intros Hdel Hfin Hcase.
  exists (finish_delete fin obj).
  assert (Hgone : fin ∉ finalizers (finish_delete fin obj)).
  { simpl. rewrite elem_of_difference, elem_of_singleton. tauto. }
  assert (Hstep : ∀ w', step (Present (finish_delete fin obj), w')
                             (Gone (finish_delete fin obj), w')).
  { intros w'. by constructor. }
  rewrite !reconcile_deleting by done. unfold reconcile_delete.
  destruct Hcase as [Hnone | (id & w1 & Hid & Hnf)].
  - rewrite Hnone. exists w. split_and!; auto.
    + intros w2. by apply reconcile_after_finish.
    + rewrite reconcile_deleting by done. unfold reconcile_delete.
      rewrite Hnone. by eexists.
  - rewrite Hid, Hnf. exists w1.
    apply api_delete_not_found in Hnf as (He & Hl & Hc).
    split_and!; auto.
    + intros w2. by apply reconcile_after_finish.
    + rewrite reconcile_deleting by done. unfold reconcile_delete.
      rewrite Hid. unfold api_delete, begin_call. simpl.
      rewrite He, Hl. by eexists.
Qed.

(** ** Finalizer ordering *)

Lemma sync_external_finalizers fuel (desired : Repr)
    (obj : DeclaredResource Spec) :
  ∀ w obj' w' out,
    sync_external fuel desired obj w = (obj', w', out) ->
    finalizers obj' = finalizers obj.
Proof.
  induction fuel as [|n IH]; intros w obj' w' out; simpl;
    repeat match goal with
           | |- context [match ?x with _ => _ end] => destruct x eqn:?
           end;
    intros Heq; try (injection Heq as <- <- <-; done); eauto.
Qed.

Lemma reconcile_guarded (obj obj' : DeclaredResource Spec)
    (w w' : World Repr) out :
  reconcile obj w = (obj', w', out) -> guarded obj -> guarded obj'.
Proof.
  unfold Core.reconcile, guarded.
  destruct (deletionRequested obj).
  - destruct (decide (fin ∈ finalizers obj)).
    + unfold reconcile_delete.
      repeat match goal with
             | |- context [match ?x with _ => _ end] => destruct x eqn:?
             end;
        intros [= <- <- <-]; simpl;
        first [ by intros _ [? ?] | by auto ].
    + by intros [= <- <- <-].
  - destruct (toExternal _).
    + intros Hs _ _. apply sync_external_finalizers in Hs. rewrite Hs.
      simpl. apply elem_of_union_l. by apply elem_of_singleton.
    + intros [= <- <- <-] _ _. simpl.
      apply elem_of_union_l. by apply elem_of_singleton.
Qed.

Lemma step_ordered (st st' : Slot * World Repr) :
  step st st' -> ordered st -> ordered st'.
Proof.
  destruct 1 as [obj w sc obj' w' out Hrec | obj w s | obj w | slot w m
                | obj w Hdel Hnofin];
    unfold Core.ordered; simpl; auto.
  - by eapply reconcile_guarded.
  - intros Hg. destruct (externalId (status obj)) eqn:Hid; [|done].
    exfalso. apply Hnofin, Hg. rewrite Hid. by eexists.
Qed.

Lemma reachable_ordered (st st' : Slot * World Repr) :
  rtc step st st' -> ordered st -> ordered st'.
Proof. induction 1; eauto using step_ordered. Qed.

(** C2: from an object created with no external id, under any
    interleaving of reconciles (with any external failures), spec edits,
    deletion requests, out-of-band external changes and store removals: an
    object that has left the store had its [externalId] cleared before; an
    object still recording an external id carries the core's finalizer,
    and no step removes it from the store. *)
Theorem finalizer_ordering (obj0 : DeclaredResource Spec)
    (w0 : World Repr) (slot : Slot) (w : World Repr) :
  externalId (status obj0) = None ->
  rtc step (Present obj0, w0) (slot, w) ->
  match slot with
  | Gone last => externalId (status last) = None
  | Present obj =>
      is_Some (externalId (status obj)) ->
      fin ∈ finalizers obj ∧
      ∀ last w', ¬ step (Present obj, w) (Gone last, w')
  end.
Proof.
  intros Hfresh Hreach.
  apply reachable_ordered in Hreach;
    [|unfold Core.ordered, Core.guarded; simpl; rewrite Hfresh;
      by intros [? ?]].
  unfold Core.ordered in Hreach. simpl in Hreach.
  destruct slot as [obj|last]; [|done].
  intros Hsome. split; [by apply Hreach|].
  intros last w' Hstep.
  inversion Hstep as [ | | | | ? ? Hdel Hnofin]; subst.
  by apply Hnofin, Hreach.
Qed.

(** ** Going through the client, and what an error leaves behind *)

Local Abbreviation reconcile_in_store :=
  (Core.reconcile_in_store toExternal fin retries).

Lemma sync_external_through_client (I : World Repr -> Prop) fuel
    (desired : Repr) (obj : DeclaredResource Spec) :
  client_preserves I ->
  ∀ w, I w -> I (sync_external fuel desired obj w).1.2.
Proof.
  intros (Hcreate & Hread & Hupdate & Hdelete).
  induction fuel as [|n IH]; intros w Hw; simpl;
    destruct (externalId (status obj)) as [id|].
  - pose proof (Hread id w Hw) as H1.
    destruct (api_read id w) as [w1 [f|cur]]; simpl in H1; [by destruct f|].
    destruct (decide (cur = Some desired)); [done|].
    pose proof (Hupdate id desired w1 H1) as H2.
    destruct (api_update id desired w1) as [w2 [f|?]]; simpl in H2;
      [by destruct f|done].
  - pose proof (Hcreate desired w Hw) as H1.
    destruct (api_create desired w) as [w1 [f|?]]; simpl in H1;
      [by destruct f|done].
  - pose proof (Hread id w Hw) as H1.
    destruct (api_read id w) as [w1 [f|cur]]; simpl in H1;
      [destruct f; [done|by apply IH]|].
    destruct (decide (cur = Some desired)); [done|].
    pose proof (Hupdate id desired w1 H1) as H2.
    destruct (api_update id desired w1) as [w2 [f|?]]; simpl in H2;
      [destruct f; [done|by apply IH]|done].
  - pose proof (Hcreate desired w Hw) as H1.
    destruct (api_create desired w) as [w1 [f|?]]; simpl in H1;
      [destruct f; [done|by apply IH]|done].
Qed.

(** Whatever every client operation keeps, a reconcile invocation keeps:
    the loop reaches the external side through the client's operations
    and in no other way. *)
Lemma reconcile_through_client (I : World Repr -> Prop)
    (obj : DeclaredResource Spec) (w : World Repr) :
  client_preserves I -> I w -> I (reconcile obj w).1.2.
Proof.
  intros HI Hw. unfold Core.reconcile.
  destruct (deletionRequested obj).
  - destruct (decide (fin ∈ finalizers obj)); [|done].
    unfold reconcile_delete. destruct (externalId (status obj)) as [id|];
      [|done].
    destruct HI as (_ & _ & _ & Hdelete). pose proof (Hdelete id w Hw) as H1.
    destruct (api_delete id w) as [w1 [f|[|]]]; done.
  - destruct (toExternal _); [|done].
    by apply sync_external_through_client.
Qed.

Lemma begin_call_ext (c : Call Repr) (w : World Repr) :
  ext (begin_call c w).2 = ext w.
Proof. done. Qed.

Lemma api_fault_ext (w : World Repr) :
  (∀ r w1 f, api_create r w = (w1, inl f) -> ext w1 = ext w) ∧
  (∀ id w1 x, api_read id w = (w1, x) -> ext w1 = ext w) ∧
  (∀ id r w1 f, api_update id r w = (w1, inl f) -> ext w1 = ext w) ∧
  (∀ id w1 f, api_delete id w = (w1, inl f) -> ext w1 = ext w).
Proof.
  unfold api_create, api_read, api_update, api_delete, begin_call.
  split_and!; intros;
    destruct (script w) as [|[?|] ?]; simpl in *;
    repeat case_match; by simplify_eq.
Qed.

(** An invocation of step 3 that ends in an error has written nothing: the
    object and the external resources are as they were. *)
Lemma sync_external_error fuel (desired : Repr)
    (obj : DeclaredResource Spec) :
  ∀ w obj' w' out,
    sync_external fuel desired obj w = (obj', w', out) ->
    out ≠ Ok -> obj' = obj ∧ ext w' = ext w.
Proof.
  induction fuel as [|n IH]; intros w obj' w' out; simpl;
    destruct (api_fault_ext w) as (Hc & Hr & _ & _);
    destruct (externalId (status obj)) as [id|].
  - destruct (api_read id w) as [w1 [f|cur]] eqn:E1.
    { apply Hr in E1. destruct f; intros [= <- <- <-] _; done. }
    apply Hr in E1. destruct (decide (cur = Some desired)).
    { by intros [= <- <- <-]. }
    destruct (api_fault_ext w1) as (_ & _ & Hu & _).
    destruct (api_update id desired w1) as [w2 [f|?]] eqn:E2.
    + apply Hu in E2. destruct f; intros [= <- <- <-] _; split; congruence.
    + by intros [= <- <- <-].
  - destruct (api_create desired w) as [w1 [f|?]] eqn:E1.
    + apply Hc in E1. destruct f; intros [= <- <- <-] _; done.
    + by intros [= <- <- <-].
  - destruct (api_read id w) as [w1 [f|cur]] eqn:E1.
    { apply Hr in E1. destruct f.
      - intros [= <- <- <-] _; done.
      - intros Hrec Hne. destruct (IH _ _ _ _ Hrec Hne) as [-> ->]. done. }
    apply Hr in E1. destruct (decide (cur = Some desired)).
    { by intros [= <- <- <-]. }
    destruct (api_fault_ext w1) as (_ & _ & Hu & _).
    destruct (api_update id desired w1) as [w2 [f|?]] eqn:E2.
    + apply Hu in E2. destruct f.
      * intros [= <- <- <-] _; split; congruence.
      * intros Hrec Hne. destruct (IH _ _ _ _ Hrec Hne) as [-> ->].
        split; congruence.
    + by intros [= <- <- <-].
  - destruct (api_create desired w) as [w1 [f|?]] eqn:E1.
    + apply Hc in E1. destruct f.
      * intros [= <- <- <-] _; done.
      * intros Hrec Hne. destruct (IH _ _ _ _ Hrec Hne) as [-> ->]. done.
    + by intros [= <- <- <-].
Qed.

(** An invocation that ends in an error has changed nothing on the
    external side and, on the object, neither its spec nor its external id,
    its deletion request or its generation. *)
Lemma reconcile_error (obj obj' : DeclaredResource Spec)
    (w w' : World Repr) out :
  reconcile obj w = (obj', w', out) ->
  error_of out ≠ None ->
  ext w' = ext w ∧
  spec obj' = spec obj ∧
  externalId (status obj') = externalId (status obj) ∧
  deletionRequested obj' = deletionRequested obj ∧
  generation obj' = generation obj.
Proof.
  unfold Core.reconcile.
  destruct (deletionRequested obj) eqn:Hdel.
  - destruct (decide (fin ∈ finalizers obj)).
    + unfold reconcile_delete.
      destruct (externalId (status obj)) as [id|] eqn:Hid.
      * destruct (api_fault_ext w) as (_ & _ & _ & Hd).
        destruct (api_delete id w) as [w1 [f|[|]]] eqn:E1;
          intros [= <- <- <-] Herr; try done.
        apply Hd in E1. done.
      * by intros [= <- <- <-] Herr.
    + by intros [= <- <- <-] Herr.
  - destruct (toExternal _) eqn:Hmap.
    + intros Hs Herr.
      apply sync_external_error in Hs as [-> ->]; [done|].
      by intros ->.
    + by intros [= <- <- <-] _.
Qed.

(** ** Errors are scoped to the object reconciled *)

Lemma reconcile_in_store_frame k k'
    (store : gmap string (DeclaredResource Spec)) (w : World Repr) :
  k' ≠ k -> (reconcile_in_store k store w).1.1 !! k' = store !! k'.
Proof.
  intros Hne. unfold Core.reconcile_in_store.
  destruct (store !! k) as [obj|]; [|done].
  destruct (reconcile obj w) as [[obj' w'] out]. simpl.
  by apply lookup_insert_ne.
Qed.

Lemma reconcile_in_store_dom k
    (store : gmap string (DeclaredResource Spec)) (w : World Repr) :
  dom (reconcile_in_store k store w).1.1 = dom store.
Proof.
  unfold Core.reconcile_in_store.
  destruct (store !! k) as [obj|] eqn:Hk; [|done].
  destruct (reconcile obj w) as [[obj' w'] out]. simpl.
  apply dom_insert_lookup_L. by eexists.
Qed.

Lemma reconcile_in_store_error k
    (store : gmap string (DeclaredResource Spec)) (w : World Repr) obj :
  store !! k = Some obj ->
  error_of (reconcile_in_store k store w).2 ≠ None ->
  ext (reconcile_in_store k store w).1.2 = ext w ∧
  ∃ obj', (reconcile_in_store k store w).1.1 !! k = Some obj' ∧
          spec obj' = spec obj ∧
          externalId (status obj') = externalId (status obj) ∧
          deletionRequested obj' = deletionRequested obj ∧
          generation obj' = generation obj.
Proof.
  intros Hk. unfold Core.reconcile_in_store. rewrite Hk.
  destruct (reconcile obj w) as [[obj' w'] out] eqn:Hr. simpl.
  intros Herr. destruct (reconcile_error _ _ _ _ _ Hr Herr) as (? & ? & ? & ? & ?).
  split; [done|]. exists obj'. by rewrite lookup_insert_eq.
Qed.

(** Reconciling one object does not change what reconciling another one
    does: same outcome, same effect on the external side, same resulting
    object. *)
Lemma reconcile_in_store_other k k'
    (store : gmap string (DeclaredResource Spec)) (w w2 : World Repr) :
  k' ≠ k ->
  (reconcile_in_store k' (reconcile_in_store k store w).1.1 w2).2 =
    (reconcile_in_store k' store w2).2 ∧
  (reconcile_in_store k' (reconcile_in_store k store w).1.1 w2).1.2 =
    (reconcile_in_store k' store w2).1.2 ∧
  (reconcile_in_store k' (reconcile_in_store k store w).1.1 w2).1.1 !! k' =
    (reconcile_in_store k' store w2).1.1 !! k'.
Proof.
  intros Hne. pose proof (reconcile_in_store_frame k k' store w Hne) as Hf.
  revert Hf. generalize (reconcile_in_store k store w).1.1. intros s1 Hf.
  unfold Core.reconcile_in_store. rewrite Hf.
  destruct (store !! k') as [obj|] eqn:Hk'; [|simpl; by rewrite Hf].
  destruct (reconcile obj w2) as [[obj' w'] out]. simpl.
  by rewrite !lookup_insert_eq.
Qed.

(** How each error kind comes back from an invocation. *)

Lemma validation_error_outcome (obj : DeclaredResource Spec)
    (w : World Repr) :
  deletionRequested obj = false ->
  toExternal (spec obj) = None ->
  reconcile obj w = (mark_invalid (add_finalizer fin obj), w, InvalidSpec).
Proof. intros Hd Hm. unfold Core.reconcile. rewrite Hd. simpl. by rewrite Hm. Qed.

Lemma transient_error_outcome (obj : DeclaredResource Spec)
    (w : World Repr) (desired : Repr) :
  deletionRequested obj = false ->
  toExternal (spec obj) = Some desired ->
  head (script w) = Some (Some Transient) ->
  (reconcile obj w).2 = Retry StageSyncing Transient ∧
  (reconcile obj w).1.1 = add_finalizer fin obj.
Proof.
  intros Hd Hm Hs. unfold Core.reconcile. rewrite Hd. simpl. rewrite Hm.
  destruct (script w) as [|f sc] eqn:Hsc; [done|]. injection Hs as ->.
  destruct retries; simpl;
    destruct (externalId (status obj)); simpl;
    unfold api_read, api_create, begin_call; simpl; rewrite Hsc; done.
Qed.

(** Conflicts are retried at once, a bounded number of times: when every
    call conflicts the invocation gives up after one call per attempt. *)
Lemma conflict_error_bounded fuel (desired : Repr)
    (obj : DeclaredResource Spec) :
  ∀ (w : World Repr) sc,
    script w = replicate (S fuel) (Some Conflict) ++ sc ->
    ∃ w', sync_external fuel desired obj w =
            (obj, w', Retry StageSyncing Conflict) ∧
          script w' = sc ∧
          List.length (calls w') = List.length (calls w) + S fuel.
Proof.
  induction fuel as [|n IH]; intros w sc Hsc; simpl;
    destruct (externalId (status obj)) as [id|]; simpl;
    unfold api_read, api_create, begin_call; simpl; rewrite Hsc; simpl.
  - eexists. split_and!; [done|done|]. simpl. rewrite length_app. simpl. lia.
  - eexists. split_and!; [done|done|]. simpl. rewrite length_app. simpl. lia.
  - edestruct IH as (w' & -> & Hs' & Hl'); [|eexists; split_and!; [done|done|]].
    + simpl. reflexivity.
    + rewrite Hl'. simpl. rewrite length_app. simpl. lia.
  - edestruct IH as (w' & -> & Hs' & Hl'); [|eexists; split_and!; [done|done|]].
    + simpl. reflexivity.
    + rewrite Hl'. simpl. rewrite length_app. simpl. lia.
Qed.

End LoopSpec.

(** ** The sample check through its life *)

Example scenario_A_first_reconcile :
  externalId (status check_synced) = Some "ext-1" ∧
  calls world_synced = [CallCreate 60] ∧
  ext world_synced !! "ext-1" = Some 60.
Proof. repeat split; reflexivity. Qed.

Lemma reconcile_synced_no_writes_witness :
  ∃ obj' w' out,
    sample_reconcile check_synced world_synced = (obj', w', out) ∧
    writes (calls w') = writes (calls world_synced) ∧
    ext w' = ext world_synced ∧
    spec obj' = spec check_synced ∧ status obj' = status check_synced ∧
    Synced sample_mapper obj' w' ∧
    (script world_synced = [] ->
     out = Ok ∧
     List.length (calls w') = S (List.length (calls world_synced))).
Proof.
  apply (reconcile_synced_no_writes sample_mapper sample_finalizer 3).
  split; [reflexivity|]. exists "ext-1", 60. repeat split; reflexivity.
Defined.

Lemma delete_not_found_is_success_witness :
  ∃ obj' w',
    sample_reconcile check_orphaned world_empty = (obj', w', Ok) ∧
    (sample_finalizer ∉ finalizers obj') ∧
    externalId (status obj') = None ∧
    ext w' = ext world_empty ∧
    step sample_mapper sample_finalizer 3 (Present obj', w') (Gone obj', w') ∧
    (∀ w2, sample_reconcile obj' w2 = (obj', w2, Ok)) ∧
    (∃ w3, sample_reconcile check_orphaned (with_script [] w') =
           (obj', w3, Ok)).
Proof.
  apply (delete_not_found_is_success sample_mapper sample_finalizer 3).
  - reflexivity.
  - simpl. by apply elem_of_singleton.
  - right. eexists "ext-404", _. split; reflexivity.
Defined.

Lemma finalizer_ordering_witness :
  externalId (status check_cleaned) = None.
Proof.
  apply (finalizer_ordering sample_mapper sample_finalizer 3
           check_created world_empty (Gone check_cleaned) world_cleaned).
  - reflexivity.
  - eapply rtc_l.
    { apply (step_reconcile _ _ _ check_created world_empty []
               check_synced world_synced Ok). reflexivity. }
    eapply rtc_l.
    { apply (step_request_deletion _ _ _ check_synced world_synced). }
    eapply rtc_l.
    { apply (step_reconcile _ _ _ check_deleting world_synced []
               check_cleaned world_cleaned Ok). reflexivity. }
    apply rtc_once. apply step_remove; [reflexivity|].
    vm_compute. intros Hin. discriminate Hin.
Defined.

(** ** The derived-resource synchronizer *)

Section DerivedSpec.
Context {Rule CheckSpec : Type}.
Variable domainPrefix : string.
Variable scanner :
  string -> gmap string string -> list Rule -> gmap string CheckSpec.

Local Abbreviation sync := (Core.sync domainPrefix scanner).
Local Abbreviation sync_all := (Core.sync_all domainPrefix scanner).
Local Abbreviation settle := (Core.settle domainPrefix scanner).
Local Abbreviation quiescent := (Core.quiescent domainPrefix scanner).
Local Abbreviation no_pending := (@Core.no_pending Rule CheckSpec).
Local Abbreviation wanted := (Core.wanted domainPrefix scanner).
Local Abbreviation desired_of := (Core.desired_of domainPrefix scanner).
Local Abbreviation scanned := (Core.scanned domainPrefix scanner).
Local Abbreviation converged := (Core.converged domainPrefix scanner).

Implicit Types (cl : Cluster Rule CheckSpec) (k : string * string).

Lemma cluster_eq cl cl' :
  ingresses cl = ingresses cl' -> checks cl = checks cl' -> cl = cl'.
Proof. destruct cl, cl'; simpl; by intros -> ->. Qed.

Lemma ingresses_sync_all xs cl :
  ingresses (sync_all xs cl) = ingresses cl.
Proof. induction xs; simpl; auto. Qed.

Lemma wanted_ingresses cl cl' k :
  ingresses cl' = ingresses cl -> wanted cl' k = wanted cl k.
Proof. unfold Core.wanted, Core.desired_of. by intros ->. Qed.

Lemma lookup_sync x cl k :
  checks (sync x cl) !! k =
    if decide (k.1 = x) then sync_slot (wanted cl k) (checks cl !! k)
    else checks cl !! k.
Proof.
  unfold Core.sync, Core.wanted; simpl.
  rewrite lookup_union, map_lookup_imap.
  destruct k as [a b]; simpl. destruct (decide (a = x)) as [->|Hne].
  - rewrite (lookup_kmap (pair x)), lookup_fmap.
    destruct (checks cl !! (x, b)) as [c|]; simpl;
      by destruct (desired_of cl x !! b).
  - assert (kmap (pair x) (live_check <$> desired_of cl x) !! (a, b) = None)
      as ->.
    { apply lookup_kmap_None; [apply _|]. intros i [= ? ?]. done. }
    by destruct (checks cl !! (a, b)).
Qed.

Lemma sync_slot_idemp (want : option CheckSpec) o :
  sync_slot want (sync_slot want o) = sync_slot want o.
Proof.
  destruct o as [[s d]|], want as [s'|]; simpl; try done.
  by destruct d.
Qed.

Lemma lookup_sync_all xs cl k :
  checks (sync_all xs cl) !! k =
    if decide (k.1 ∈ xs) then sync_slot (wanted cl k) (checks cl !! k)
    else checks cl !! k.
Proof.
  induction xs as [|x xs IH].
  - simpl. done.
  - change (sync_all (x :: xs) cl) with (sync x (sync_all xs cl)).
    rewrite lookup_sync, IH.
    rewrite (wanted_ingresses cl) by apply ingresses_sync_all.
    destruct (decide (k.1 = x)) as [Hx|Hx].
    + rewrite (decide_True (P := k.1 ∈ x :: xs)) by (rewrite Hx; left).
      destruct (decide (k.1 ∈ xs)); [apply sync_slot_idemp|done].
    + destruct (decide (k.1 ∈ xs)) as [Hin|Hin].
      * rewrite decide_True; [done|]. by right.
      * rewrite decide_False; [done|].
        intros [?|?]%elem_of_cons; done.
Qed.

Lemma lookup_finalize_all cl k :
  checks (finalize_all cl) !! k =
    c ← checks cl !! k; if d_deletionRequested c then None else Some c.
Proof.
  unfold finalize_all; simpl. rewrite map_lookup_filter.
  destruct (checks cl !! k) as [[s [|]]|]; simpl; try done.
Qed.

Lemma elem_of_owners cl x :
  x ∈ owners cl ↔
  x ∈ dom (ingresses cl) ∨ ∃ k, k.1 = x ∧ k ∈ dom (checks cl).
Proof.
  unfold owners. rewrite elem_of_elements, elem_of_union, elem_of_map.
  split; (intros [Hi|(k & Hk & Hd)]; [by left|right; by exists k]).
Qed.

Lemma not_owner cl k :
  k.1 ∉ owners cl -> checks cl !! k = None ∧ wanted cl k = None.
Proof.
  rewrite elem_of_owners. intros Hn. split.
  - apply not_elem_of_dom. intros Hk. apply Hn. right. by exists k.
  - unfold Core.wanted, Core.desired_of.
    destruct (ingresses cl !! k.1) eqn:Hi; [|apply lookup_empty].
    destruct Hn. left. apply elem_of_dom. by eexists.
Qed.

Lemma lookup_sync_owners cl k :
  checks (sync_all (owners cl) cl) !! k =
    sync_slot (wanted cl k) (checks cl !! k).
Proof.
  rewrite lookup_sync_all.
  destruct (decide (k.1 ∈ owners cl)) as [|Hn]; [done|].
  by apply not_owner in Hn as [-> ->].
Qed.

(** At a fixed point of the synchronizer every entry of the index is
    what one more event for its owner would make of it. *)
Lemma quiescent_lookup cl k :
  quiescent cl -> sync_slot (wanted cl k) (checks cl !! k) = checks cl !! k.
Proof.
  intros Hs. apply (f_equal (fun c => checks c !! k)) in Hs.
  by rewrite lookup_sync_owners in Hs.
Qed.

Lemma quiescent_converged cl :
  quiescent cl ∧ no_pending cl ↔ converged cl.
Proof.
  split.
  - intros [Hs Hf] k.
    apply (quiescent_lookup cl k) in Hs.
    apply (f_equal (fun c => checks c !! k)) in Hf.
    rewrite lookup_finalize_all in Hf.
    destruct (checks cl !! k) as [[s d]|], (wanted cl k) as [s'|];
      simpl in *; try done; destruct d; simpl in *; congruence.
  - intros Hc. split; apply cluster_eq.
    + apply ingresses_sync_all.
    + apply map_eq. intros k. rewrite lookup_sync_owners, Hc.
      by destruct (wanted cl k).
    + done.
    + apply map_eq. intros k. rewrite lookup_finalize_all, Hc.
      by destruct (wanted cl k).
Qed.

Lemma ingresses_settle cl : ingresses (settle cl) = ingresses cl.
Proof.
  unfold Core.settle. rewrite ingresses_sync_all. simpl.
  apply ingresses_sync_all.
Qed.

(** The settling schedule leaves exactly the wanted checks, all live. *)
Lemma settle_converged cl : converged (settle cl).
Proof.
  intros k. rewrite (wanted_ingresses cl) by apply ingresses_settle.
  unfold Core.settle. rewrite lookup_sync_all, lookup_finalize_all.
  rewrite lookup_sync_all.
  rewrite (wanted_ingresses cl)
    by (simpl; apply ingresses_sync_all).
  destruct (decide (k.1 ∈ owners cl)) as [|Hn].
  - destruct (checks cl !! k) as [[s d]|], (wanted cl k) as [s'|];
      simpl; try done; by destruct d.
  - by apply not_owner in Hn as [-> ->].
Qed.

Lemma wanted_scanned cl k : is_Some (wanted cl k) ↔ scanned cl k.
Proof.
  unfold Core.wanted, Core.desired_of, Core.scanned.
  destruct (ingresses cl !! k.1) as [ing|] eqn:Hi.
  - destruct (annotation_matching domainPrefix ing) eqn:Hm.
    + rewrite <- elem_of_dom. split.
      * intros Hk. by exists ing.
      * by intros (ing' & [= <-] & _ & Hk).
    + rewrite lookup_empty. split.
      * by intros [? ?].
      * intros (ing' & [= <-] & Hm' & _). congruence.
  - rewrite lookup_empty. split.
    + by intros [? ?].
    + by intros (ing' & ? & _).
Qed.

Lemma elem_of_live_keys cl k :
  k ∈ live_keys cl ↔
  ∃ c, checks cl !! k = Some c ∧ d_deletionRequested c = false.
Proof.
  unfold live_keys. rewrite elem_of_dom. unfold is_Some.
  by setoid_rewrite map_lookup_filter_Some.
Qed.


End DerivedSpec.

(** ** Scenario D *)

Example scenario_D_settled :
  checks cluster_D_settled =
    {[ ("ingress-b", "rule-0") :=
         {| d_spec := "https://b.example"; d_deletionRequested := false |} ]} ∧
  live_keys cluster_D_settled = {[ ("ingress-b", "rule-0") ]}.
Proof. split; vm_compute; reflexivity. Qed.



End CoreSpec.

(* ===================================================================== *)
(** * Part V: further properties of cmd/main.go                          *)
(* ===================================================================== *)

Module StartupSpec.
Import Cmd Startup CmdSpec.

Lemma omap_reconciles {B} (f : Event -> option B)
    (l : list (Kind * option ErrorKind)) :
  (∀ k r, f (EvReconcile k r) = None) ->
  omap f (map (fun kr => EvReconcile kr.1 kr.2) l) = [].
Proof. intros Hf. induction l as [|[k r] l IH]; simpl; [done|]. by rewrite Hf. Qed.

Ltac unfold_obs :=
  unfold managers_constructed, env_reads, errors_logged, probes,
    account_ids_set, manager_constructed, wiring_ok, manager_options in *.

Ltac settle_obs :=
  rewrite ?omap_app; rewrite ?omap_reconciles by done; simpl.

Ltac wiring_cases := unfold_obs; run_cases; settle_obs.

(** A registration that failed contradicts "all registrations succeed". *)
Ltac setup_contra :=
  match goal with
  | H : ∀ k, setupWithManager_err _ k = None,
    H' : setupWithManager_err _ _ = Some _ |- _ =>
      rewrite H in H'; discriminate H'
  end.

(** ** When the operator starts, and when main returns *)

(** X1: main returns normally exactly when every wiring step succeeded and
    [mgr.Start] returned no error; in every other run it ends in
    [os.Exit]. *)
Theorem main_returns_iff (e : Env) :
  run_result e = Ret tt ↔ wiring_ok e ∧ start_err e = None.
Proof.
  wiring_cases; split.
  all: try (intros Hr; discriminate Hr).
  all: try (intros [(? & ? & ? & ? & ? & ? & ?) ?];
            first [congruence | setup_contra]).
  intros _. split_and!; auto. intros []; done.
Qed.

(** X2: [mgr.Start] is called exactly when every wiring step before it
    succeeded: the cluster configuration, the manager, both credentials,
    the four controllers and the two health endpoints. *)
Theorem manager_started_iff (e : Env) :
  manager_started e = true ↔ wiring_ok e.
Proof.
  wiring_cases; split.
  all: try (intros Hr; discriminate Hr).
  all: try (intros (? & ? & ? & ? & ? & ? & ?);
            first [congruence | setup_contra]).
  all: intros _; split_and!; auto; intros []; done.
Qed.

(** ** The manager's options *)

(** X3: [ctrl.NewManager] is called at most once, only after the cluster
    configuration was loaded, and with the package scheme, the flag values
    (":8080", ":8081" and no leader election when the flags are absent)
    and the fixed leader-election id. *)
Theorem manager_options_from_flags (e : Env) :
  managers_constructed (run_trace e) =
    if getConfig_ok e then [manager_options e] else [].
Proof.
  wiring_cases; reflexivity.
Qed.

(** ** Reading the credentials *)

(** X4: main reads no environment variable unless the manager was
    constructed; it then reads CHECKLY_API_KEY, and CHECKLY_ACCOUNT_ID only
    if the key is not empty.  With the key empty the error logged is the
    one about the API key, whatever the account id is; with only the
    account id empty it is the one about the account id. *)
Theorem credentials_read_in_order (e : Env) :
  env_reads (run_trace e) =
    (if manager_constructed e
     then if decide (getenv e "CHECKLY_API_KEY" = "")
          then ["CHECKLY_API_KEY"]
          else ["CHECKLY_API_KEY"; "CHECKLY_ACCOUNT_ID"]
     else []) ∧
  (manager_constructed e = true ->
   (getenv e "CHECKLY_API_KEY" = "" ->
    errors_logged (run_trace e) = [api_key_undefined]) ∧
   (getenv e "CHECKLY_API_KEY" ≠ "" ->
    getenv e "CHECKLY_ACCOUNT_ID" = "" ->
    errors_logged (run_trace e) = [account_id_undefined])).
Proof.
  unfold api_key_undefined, account_id_undefined.
  split.
  - wiring_cases; reflexivity.
  - wiring_cases; intros Hc; try discriminate Hc; split; intros; done.
Qed.

(** ** Errors and exits *)

Ltac suffix_here :=
  rewrite <- ?app_assoc; simpl;
  repeat first [ by exists [] | apply suffix_cons_r | apply suffix_app_r ].


(** X6: when the registration of controller [k] fails with error [x],
    the controllers before it having been registered, main logs [x] as
    "unable to create controller" with the controller's name and exits
    with status 1: no later controller is registered, no health endpoint
    is added and the manager is not started. *)
Theorem failed_registration_stops_startup (e : Env) (k : Kind) (x : string) :
  manager_constructed e = true ->
  getenv e "CHECKLY_API_KEY" ≠ "" ->
  getenv e "CHECKLY_ACCOUNT_ID" ≠ "" ->
  Forall (fun k' => setupWithManager_err e k' = None) (kinds_before k) ->
  setupWithManager_err e k = Some x ->
  run_result e = Exited 1 ∧
  map kindOf (registered (run_trace e)) = kinds_before k ++ [k] ∧
  errors_logged (run_trace e) =
    [(x, "unable to create controller", [("controller", kind_name k)])] ∧
  probes (run_trace e) = [] ∧
  manager_started e = false.
Proof.
  intros [Hcfg Hmgr%bool_decide_eq_true]%andb_prop Hkey Hacct Hbefore Hk.
  destruct k; simpl in Hbefore;
    repeat match goal with
           | H : Forall _ (_ :: _) |- _ => apply Forall_cons in H as [? H]
           end;
    wiring_cases; try congruence; split_and!; congruence.
Qed.

Lemma failed_registration_stops_startup_witness :
  run_result env_group_fails = Exited 1 ∧
  map kindOf (registered (run_trace env_group_fails)) =
    kinds_before Group ++ [Group] ∧
  errors_logged (run_trace env_group_fails) =
    [("no CRD", "unable to create controller", [("controller", kind_name Group)])] ∧
  probes (run_trace env_group_fails) = [] ∧
  manager_started env_group_fails = false.
Proof.
  apply (failed_registration_stops_startup env_group_fails Group "no CRD").
  - reflexivity.
  - vm_compute. discriminate.
  - vm_compute. discriminate.
  - repeat constructor.
  - reflexivity.
Defined.

(** ** Health endpoints *)

(** X7: the health endpoints are added in the order "healthz", "readyz",
    the second only if the first succeeded, and only once all four
    controllers are registered; whenever the manager is started both were
    added before [mgr.Start] is called. *)
Theorem probes_before_start (e : Env) :
  probes (run_trace e) `prefix_of`
    [EvAddHealthzCheck "healthz"; EvAddReadyzCheck "readyz"] ∧
  (probes (run_trace e) ≠ [] ->
   map kindOf (registered (run_trace e)) = all_kinds ∧
   (is_Some (addHealthzCheck_err e) ->
    probes (run_trace e) = [EvAddHealthzCheck "healthz"])) ∧
  (manager_started e = true ->
   probes (before_start (run_trace e)) =
     [EvAddHealthzCheck "healthz"; EvAddReadyzCheck "readyz"]).
Proof.
  unfold all_kinds. split_and!.
  - wiring_cases; by eexists.
  - wiring_cases; intros Hp; try done; split; try done;
      by intros [? ?].
  - wiring_cases; intros Hs; try discriminate Hs; done.
Qed.

(** ** The client's account id *)

(** X8: each client main creates has its account id set exactly once,
    to the value of CHECKLY_ACCOUNT_ID, and no controller is registered
    before that: a reconciler never receives a client without its account
    id. *)
Theorem account_id_set_before_registration (e : Env) :
  account_ids_set (run_trace e) =
    map (fun ref => (ref, getenv e "CHECKLY_ACCOUNT_ID"))
        (clients_created (run_trace e)) ∧
  registered (before_account_id (run_trace e)) = [] ∧
  clients_created (before_account_id (run_trace e)) =
    clients_created (run_trace e).
Proof.
  split_and!; wiring_cases; reflexivity.
Qed.

(** ** [init] before [main] *)

(** X9: the process panics in [init] exactly when one of the two scheme
    registrations fails, and then nothing of main runs; if the client-go
    registration fails the checkly one is not attempted; otherwise main
    runs with a scheme that holds the client-go types and the checkly
    v1alpha1 types. *)
Theorem init_registers_schemes (ie : InitEnv) (e : Env) :
  ((process ie e).2 = Panicked ↔
   ∃ g, is_Some (addToScheme_err ie g)) ∧
  ((process ie e).2 = Panicked -> (process ie e).1.2 = []) ∧
  (is_Some (addToScheme_err ie ClientGoScheme) ->
   EvAddToScheme ChecklyV1alpha1 ∉ init_trace (process ie e).1.1) ∧
  ((process ie e).2 ≠ Panicked ->
   scheme_groups (process ie e).1.1 = [ClientGoScheme; ChecklyV1alpha1] ∧
   (process ie e).1.2 = run_trace e ∧
   (process ie e).2 = Finished (run_result e)).
Proof.
  unfold process, init, AddToScheme, utilruntime_Must, mbind, IM_bind.
  simpl.
  destruct (addToScheme_err ie ClientGoScheme) as [x|] eqn:Hc; simpl;
    [|destruct (addToScheme_err ie ChecklyV1alpha1) as [y|] eqn:Hk; simpl].
  - split_and!.
    + split; [|done]. intros _. exists ClientGoScheme. by rewrite Hc.
    + done.
    + intros _ Hin. apply list_elem_of_In in Hin. simpl in Hin.
      destruct Hin as [Heq|[Heq|[]]]; discriminate Heq.
    + intros Hn. by destruct Hn.
  - split_and!.
    + split; [|done]. intros _. exists ChecklyV1alpha1. by rewrite Hk.
    + done.
    + by intros [? ?].
    + intros Hn. by destruct Hn.
  - split_and!.
    + split; [done|]. intros [[] [z Hz]]; congruence.
    + done.
    + by intros [? ?].
    + done.
Qed.

End StartupSpec.

(* ===================================================================== *)
(** * Part VI: the wiring and the core together                          *)
(* ===================================================================== *)

Module WiringSpec.
Import Cmd Startup CmdSpec StartupSpec.

(** The registrations main has reached: from the facts about the
    environment to the reconciler found at a kind's position. *)
Ltac registration_cases k Hbefore :=
  destruct k; simpl in Hbefore;
  repeat match goal with
         | H : Forall _ (_ :: _) |- _ => apply Forall_cons in H as [? H]
         end;
  unfold external_client, client_from_env, reconciler_literal, position in *;
  wiring_cases; try congruence; try done.

(** One goal per registered reconciler. *)
Ltac each_registered :=
  repeat first [ apply Forall_nil_2 | apply Forall_cons_2 ].

(** ** The controller domain *)

(** C8: the domain is the one value of the flag [controller-domain],
    "k8s.checklyhq.com" when the flag is absent; main logs it first, every
    reconciler handed to the manager carries that very string, and each of
    the four controllers (Ingress, ApiCheck, Group, AlertChannel) whose
    registration is reached is handed it. *)
Theorem controller_domain_verbatim (e : Env) :
  controllerDomain e =
    default "k8s.checklyhq.com" (arg_controller_domain (cmdline e)) ∧
  head (run_trace e) =
    Some (EvLogInfo 0 "Controller domain setup"
            [("value", controllerDomain e)]) ∧
  Forall (fun r => domainOf r = controllerDomain e)
         (registered (run_trace e)) ∧
  (manager_constructed e = true ->
   getenv e "CHECKLY_API_KEY" ≠ "" ->
   getenv e "CHECKLY_ACCOUNT_ID" ≠ "" ->
   ∀ k,
     Forall (fun k' => setupWithManager_err e k' = None) (kinds_before k) ->
     kindOf <$> registered (run_trace e) !! position k = Some k ∧
     domainOf <$> registered (run_trace e) !! position k =
       Some (controllerDomain e)).
Proof.
  split_and!.
  - unfold controllerDomain, flag_Var. by destruct (arg_controller_domain _).
  - run_cases; reflexivity.
  - run_cases; repeat constructor.
  - intros [Hcfg Hmgr%bool_decide_eq_true]%andb_prop Hkey Hacct k Hbefore.
    registration_cases k Hbefore.
Qed.

Lemma controller_domain_verbatim_witness :
  kindOf <$> registered (run_trace env_custom_domain) !! position AlertChannel
    = Some AlertChannel ∧
  domainOf <$> registered (run_trace env_custom_domain) !! position AlertChannel
    = Some (controllerDomain env_custom_domain).
Proof.
  apply (controller_domain_verbatim env_custom_domain).
  - reflexivity.
  - vm_compute. discriminate.
  - vm_compute. discriminate.
  - repeat constructor.
Defined.

Example custom_domain_reaches_all :
  map domainOf (registered (run_trace env_custom_domain)) =
    ["monitoring.example.org"; "monitoring.example.org";
     "monitoring.example.org"; "monitoring.example.org"].
Proof. reflexivity. Qed.

(** ** The external API client *)

(** C6: when the manager is constructed and both credentials are set, main
    constructs exactly one client, from CHECKLY_API_KEY and
    CHECKLY_ACCOUNT_ID and with no transport of its own (nil: the SDK's
    default), and hands a reference to that one object to each of the
    ApiCheck, Group and AlertChannel reconcilers whose registration is
    reached; in no run is a second client constructed or a declarative
    reconciler registered without it.  The reconcile loop, modelled from
    the design document, reaches the external side only through the
    operations of the client it is given: whatever every client operation
    keeps, a reconcile invocation keeps. *)
Theorem single_api_client_injected :
  (∀ e : Env,
     (List.length (clients_created (run_trace e)) ≤ 1)%nat ∧
     Forall (fun r =>
               declarative (kindOf r) = true ->
               clients_created (run_trace e) = [0] ∧
               apiClientOf r = Some 0 ∧
               external_client (run_heap e) r = Some (client_from_env e) ∧
               cl_apiKey (client_from_env e) ≠ "" ∧
               cl_accountId (client_from_env e) ≠ "")
            (registered (run_trace e)) ∧
     (manager_constructed e = true ->
      getenv e "CHECKLY_API_KEY" ≠ "" ->
      getenv e "CHECKLY_ACCOUNT_ID" ≠ "" ->
      clients_created (run_trace e) = [0] ∧
      run_heap e = [client_from_env e] ∧
      ∀ k,
        declarative k = true ->
        Forall (fun k' => setupWithManager_err e k' = None) (kinds_before k) ->
        kindOf <$> registered (run_trace e) !! position k = Some k ∧
        registered (run_trace e) !! position k ≫=
          external_client (run_heap e) = Some (client_from_env e))) ∧
  (∀ (Spec Repr : Type) (EqR : EqDecision Repr)
     (toExternal : Spec -> option Repr) (fin : string) (retries : nat)
     (I : Core.World Repr -> Prop)
     (obj : Core.DeclaredResource Spec) (w : Core.World Repr),
     Core.client_preserves I -> I w ->
     I (Core.reconcile toExternal fin retries obj w).1.2).
Proof.
  split.
  - intros e. split_and!.
    + run_cases; lia.
    + unfold external_client, client_from_env.
      run_cases; each_registered;
        simpl; intros Hd; try discriminate Hd; split_and!; done.
    + intros [Hcfg Hmgr%bool_decide_eq_true]%andb_prop Hkey Hacct.
      split_and!.
      * revert Hkey Hacct. run_cases; intros; first [done|congruence].
      * revert Hkey Hacct. unfold client_from_env.
        run_cases; intros; first [done|congruence].
      * intros k Hdecl Hbefore.
        registration_cases k Hbefore.
  - intros Spec Repr EqR toExternal fin retries I obj w HI Hw.
    by apply CoreSpec.reconcile_through_client.
Qed.

Lemma single_api_client_injected_witness :
  kindOf <$> registered (run_trace env_healthy) !! position AlertChannel
    = Some AlertChannel ∧
  registered (run_trace env_healthy) !! position AlertChannel ≫=
    external_client (run_heap env_healthy) =
  Some (client_from_env env_healthy).
Proof.
  apply (proj1 single_api_client_injected env_healthy).
  - reflexivity.
  - vm_compute. discriminate.
  - vm_compute. discriminate.
  - reflexivity.
  - repeat constructor.
Defined.

(** ** The Ingress reconciler *)

(** C10: the Ingress reconciler, registered first whenever the manager is
    constructed and the credentials are set, is given the cluster client,
    the scheme and the controller domain and no API client: a call through
    its [ApiClient] field reaches nothing.  In every run the registered
    reconcilers that hold the API client are exactly those of the three
    declarative kinds.  The ingress-derived synchronizer, modelled from
    the design document, leaves the ingress objects alone and creates,
    updates or requests the deletion of derived checks of the ingress it
    handles, and of no other. *)
Theorem ingress_reconciler_has_no_api_client :
  (∀ e : Env,
     Forall (fun r =>
               (apiClientOf r = None ↔ kindOf r = Ingress) ∧
               (external_client (run_heap e) r = None ↔ kindOf r = Ingress) ∧
               (is_Some (external_client (run_heap e) r) ↔
                declarative (kindOf r) = true) ∧
               (kindOf r = Ingress ->
                r = IngressReconciler mgr_GetClient mgr_GetScheme
                      (controllerDomain e)))
            (registered (run_trace e)) ∧
     (manager_constructed e = true ->
      getenv e "CHECKLY_API_KEY" ≠ "" ->
      getenv e "CHECKLY_ACCOUNT_ID" ≠ "" ->
      head (registered (run_trace e)) =
        Some (IngressReconciler mgr_GetClient mgr_GetScheme
                (controllerDomain e)) ∧
      head (registered (run_trace e)) ≫= external_client (run_heap e) = None ∧
      ((∀ k, setupWithManager_err e k = None) ->
       map (external_client (run_heap e)) (registered (run_trace e)) =
         [None; Some (client_from_env e); Some (client_from_env e);
          Some (client_from_env e)]))) ∧
  (∀ (Rule CheckSpec : Type) (domainPrefix : string)
     (scanner : string -> gmap string string -> list Rule ->
                gmap string CheckSpec)
     (x : string) (cl : Core.Cluster Rule CheckSpec),
     Core.ingresses (Core.sync domainPrefix scanner x cl) = Core.ingresses cl ∧
     ∀ k,
       Core.checks (Core.sync domainPrefix scanner x cl) !! k =
         if decide (k.1 = x)
         then Core.sync_slot (Core.wanted domainPrefix scanner cl k)
                (Core.checks cl !! k)
         else Core.checks cl !! k).
Proof.
  split.
  - intros e. split.
    + unfold external_client.
      run_cases; each_registered; simpl; split_and!;
        try done; split; try done; try (by intros [? ?]); by eexists.
    + intros [Hcfg Hmgr%bool_decide_eq_true]%andb_prop Hkey Hacct.
      unfold external_client, client_from_env.
      split_and!.
      * revert Hkey Hacct. run_cases; intros; first [done|congruence].
      * revert Hkey Hacct. run_cases; intros; first [done|congruence].
      * intros Hall. revert Hkey Hacct.
        pose proof (Hall Ingress). pose proof (Hall ApiCheck).
        pose proof (Hall Group). pose proof (Hall AlertChannel).
        run_cases; intros; first [done|congruence].
  - intros Rule CheckSpec domainPrefix scanner x cl. split; [done|].
    intros k. apply CoreSpec.lookup_sync.
Qed.

Lemma ingress_reconciler_has_no_api_client_witness :
  head (registered (run_trace env_healthy)) =
    Some (IngressReconciler mgr_GetClient mgr_GetScheme
            (controllerDomain env_healthy)) ∧
  head (registered (run_trace env_healthy)) ≫=
    external_client (run_heap env_healthy) = None ∧
  ((∀ k, setupWithManager_err env_healthy k = None) ->
   map (external_client (run_heap env_healthy))
       (registered (run_trace env_healthy)) =
     [None; Some (client_from_env env_healthy);
      Some (client_from_env env_healthy);
      Some (client_from_env env_healthy)]).
Proof.
  apply (proj1 ingress_reconciler_has_no_api_client env_healthy).
  - reflexivity.
  - vm_compute. discriminate.
  - vm_compute. discriminate.
Defined.

(** ** Errors and process exit *)



End WiringSpec.
